(** * Bouncing spheres: a shallow embedding of [simulation/main.cpp]

    The program keeps a vector of spheres; every frame it appends a sphere per
    left click and then runs one update loop over the vector (gravity,
    movement, window edges, sphere-sphere collisions).

    All physics is computed on C++ [double]s.  The embedding is written once,
    over an interface [Arith] of the operations the source uses on [double]
    ([+ - * /], unary minus, [std::sqrt], [<], [<=], conversion from [int]),
    and is then read at two instances:

    - [R_arith]: exact real arithmetic, the idealised semantics, in which the
      closed forms of the update hold exactly;
    - [binary64_arith]: Rocq's primitive IEEE-754 binary64 floats, the machine
      semantics (every operation rounded to nearest even, as a C++ compiler
      evaluating [double] expressions without contraction does), on which
      the code is run on concrete inputs and where the behaviour that only
      exists there (rounding, division by zero, NaN) is stated.

    Statements that do not depend on the arithmetic are proved for every
    instance of [Arith]; statements about order are proved at both
    instances; closed forms that rounding breaks are proved at [R_arith],
    with the run on doubles that shows the deviation.

    Drawing ([setPixel], [drawFilledCircle] and the loop over the vector) is
    embedded over a model of the window surface; what C++ leaves undefined
    there (an [int] overflow, a [double] that does not convert to [int], a
    write outside the pixel buffer) is the absence of a result. *)

From Stdlib Require Import ZArith Reals Lra Lia List Floats Uint63.
From stdpp Require Import base list.
Import ListNotations.

Set Default Proof Using "Type".

(** ** The arithmetic of [double] *)

Class Arith (D : Type) : Type := {
  of_int : Z -> D;          (* implicit conversion int -> double *)
  dadd : D -> D -> D;
  dsub : D -> D -> D;
  dmul : D -> D -> D;
  ddiv : D -> D -> D;
  dneg : D -> D;
  dsqrt : D -> D;           (* std::sqrt *)
  dlt : D -> D -> bool;     (* a < b *)
  dle : D -> D -> bool      (* a <= b *)
}.

Declare Scope double_scope.
Delimit Scope double_scope with dbl.
Infix "+" := dadd : double_scope.
Infix "-" := dsub : double_scope.
Infix "*" := dmul : double_scope.
Infix "/" := ddiv : double_scope.
Notation "- a" := (dneg a) : double_scope.
Infix "<?" := dlt (at level 70, no associativity) : double_scope.
Infix "<=?" := dle (at level 70, no associativity) : double_scope.
Notation "a >=? b" := (dle b a) (at level 70, no associativity) : double_scope.

(** A decimal literal [n/d] of the source ([0.2] is [dec 2 10]); at binary64
    the correctly rounded quotient of two exactly represented integers is the
    double nearest to the decimal, which is what the C++ literal denotes. *)
Definition dec {D} `{Arith D} (n d : Z) : D := (of_int n / of_int d)%dbl.

(** *** Exact reals *)

Definition Rltb (a b : R) : bool := if Rlt_dec a b then true else false.
Definition Rleb (a b : R) : bool := if Rle_dec a b then true else false.

#[export] Instance R_arith : Arith R := {|
  of_int := IZR;
  dadd := Rplus;
  dsub := Rminus;
  dmul := Rmult;
  ddiv := Rdiv;
  dneg := Ropp;
  dsqrt := R_sqrt.sqrt;
  dlt := Rltb;
  dle := Rleb
|}.

(** *** IEEE-754 binary64 *)

(** [int] is 32 bits wide, so every converted value is below [2^53] in
    magnitude and the conversion is exact. *)
Definition float_of_int (z : Z) : float :=
  match z with
  | Z0 => PrimFloat.zero
  | Zpos _ => PrimFloat.of_uint63 (Uint63.of_Z z)
  | Zneg p => PrimFloat.opp (PrimFloat.of_uint63 (Uint63.of_Z (Zpos p)))
  end.

#[export] Instance binary64_arith : Arith float := {|
  of_int := float_of_int;
  dadd := PrimFloat.add;
  dsub := PrimFloat.sub;
  dmul := PrimFloat.mul;
  ddiv := PrimFloat.div;
  dneg := PrimFloat.opp;
  dsqrt := PrimFloat.sqrt;
  dlt := PrimFloat.ltb;
  dle := PrimFloat.leb
|}.

(** ** Constants (main.cpp, lines 7-11) *)

Definition SCREEN_WIDTH : Z := 640.
Definition SCREEN_HEIGHT : Z := 480.
Definition SPHERE_RADIUS : Z := 20.

Section Simulation.

Context {D : Type} `{Arith D}.
Local Open Scope double_scope.

Definition GRAVITY : D := dec 2 10.
Definition BOUNCE_FACTOR : D := dec 8 10.

(** ** Data (lines 13-43) *)

Record Vector2 : Type := mkVector2 { x : D; y : D }.

Definition Vector2_plus (a b : Vector2) : Vector2 :=
  mkVector2 (x a + x b) (y a + y b).

Definition Vector2_minus (a b : Vector2) : Vector2 :=
  mkVector2 (x a - x b) (y a - y b).

Definition Vector2_scale (a : Vector2) (scalar : D) : Vector2 :=
  mkVector2 (x a * scalar) (y a * scalar).

Definition Vector2_times (a b : Vector2) : Vector2 :=
  mkVector2 (x a * x b) (y a * y b).

Record Sphere : Type := mkSphere {
  position : Vector2;
  velocity : Vector2;
  color : Z;                (* Uint32 *)
  bounceFactor : D
}.

(** ** [handleSphereCollision] (lines 62-98)

    The two references are distinct objects at the only call site, so the
    function is a map from the pair of spheres to the pair of updated
    spheres. *)
Definition handleSphereCollision (sphere1 sphere2 : Sphere) : Sphere * Sphere :=
  let relativePosition := Vector2_minus (position sphere2) (position sphere1) in
  let distance :=
    dsqrt (x relativePosition * x relativePosition
           + y relativePosition * y relativePosition) in
  let totalRadius := of_int (2 * SPHERE_RADIUS) in
  if distance <? totalRadius then
    let penetration := totalRadius - distance in
    let normal := Vector2_scale relativePosition (of_int 1 / distance) in
    let relativeVelocity := Vector2_minus (velocity sphere2) (velocity sphere1) in
    let relativeSpeed :=
      x normal * x relativeVelocity + y normal * y relativeVelocity in
    if relativeSpeed <? of_int 0 then
      let impulse :=
        (of_int 2 * relativeSpeed)
        / (of_int 1 / bounceFactor sphere1 + of_int 1 / bounceFactor sphere2) in
      let velocity1 :=
        mkVector2
          (x (velocity sphere1) + impulse * (x normal * (of_int 1 / bounceFactor sphere1)))
          (y (velocity sphere1) + impulse * (y normal * (of_int 1 / bounceFactor sphere1))) in
      let velocity2 :=
        mkVector2
          (x (velocity sphere2) - impulse * (x normal * (of_int 1 / bounceFactor sphere2)))
          (y (velocity sphere2) - impulse * (y normal * (of_int 1 / bounceFactor sphere2))) in
      let moveDistance := penetration * dec 5 10 in
      let position1 :=
        mkVector2
          (x (position sphere1) - moveDistance * x normal)
          (y (position sphere1) - moveDistance * y normal) in
      let position2 :=
        mkVector2
          (x (position sphere2) + moveDistance * x normal)
          (y (position sphere2) + moveDistance * y normal) in
      (mkSphere position1 velocity1 (color sphere1) (bounceFactor sphere1),
       mkSphere position2 velocity2 (color sphere2) (bounceFactor sphere2))
    else (sphere1, sphere2)
  else (sphere1, sphere2).

(** The intermediate values of [handleSphereCollision], named so that
    statements can speak about them. *)
Definition centerDistance (sphere1 sphere2 : Sphere) : D :=
  let relativePosition := Vector2_minus (position sphere2) (position sphere1) in
  dsqrt (x relativePosition * x relativePosition
         + y relativePosition * y relativePosition).

Definition overlapping (sphere1 sphere2 : Sphere) : bool :=
  centerDistance sphere1 sphere2 <? of_int (2 * SPHERE_RADIUS).

Definition contactNormal (sphere1 sphere2 : Sphere) : Vector2 :=
  Vector2_scale (Vector2_minus (position sphere2) (position sphere1))
                (of_int 1 / centerDistance sphere1 sphere2).

Definition closingSpeed (sphere1 sphere2 : Sphere) : D :=
  let normal := contactNormal sphere1 sphere2 in
  let relativeVelocity := Vector2_minus (velocity sphere2) (velocity sphere1) in
  x normal * x relativeVelocity + y normal * y relativeVelocity.

(** ** The frame loop of [main] (lines 130-200) *)

(** Lines 137-142: the sphere built for a left click at pixel [(ex, ey)];
    [c] is the value of [SDL_MapRGB] on three [rand() % 256] draws. *)
Definition newSphere (ex ey : Z) (c : Z) : Sphere :=
  mkSphere (mkVector2 (of_int ex) (of_int ey))
           (mkVector2 (of_int 0) (of_int 0))
           c
           BOUNCE_FACTOR.

(** Line 142: [spheres.push_back(newSphere)]. *)
Definition spawn (ex ey : Z) (c : Z) (spheres : list Sphere) : list Sphere :=
  spheres ++ [newSphere ex ey c].

(** Lines 149-152: gravity, then movement with the updated velocity. *)
Definition integrate (sphere : Sphere) : Sphere :=
  let velocity' := mkVector2 (x (velocity sphere)) (y (velocity sphere) + GRAVITY) in
  mkSphere (Vector2_plus (position sphere) velocity') velocity'
           (color sphere) (bounceFactor sphere).

(** Lines 155-161: the bottom edge. *)
Definition bounceBottom (sphere : Sphere) : Sphere :=
  if y (position sphere) + of_int SPHERE_RADIUS >=? of_int SCREEN_HEIGHT then
    mkSphere (mkVector2 (x (position sphere)) (of_int (SCREEN_HEIGHT - SPHERE_RADIUS)))
             (mkVector2 (x (velocity sphere)) (- y (velocity sphere) * BOUNCE_FACTOR))
             (color sphere) (bounceFactor sphere)
  else sphere.

(** Lines 164-177: the left edge, else the right edge. *)
Definition bounceSides (sphere : Sphere) : Sphere :=
  if x (position sphere) - of_int SPHERE_RADIUS <=? of_int 0 then
    mkSphere (mkVector2 (of_int SPHERE_RADIUS) (y (position sphere)))
             (mkVector2 (- x (velocity sphere) * BOUNCE_FACTOR) (y (velocity sphere)))
             (color sphere) (bounceFactor sphere)
  else if x (position sphere) + of_int SPHERE_RADIUS >=? of_int SCREEN_WIDTH then
    mkSphere (mkVector2 (of_int (SCREEN_WIDTH - SPHERE_RADIUS)) (y (position sphere)))
             (mkVector2 (- x (velocity sphere) * BOUNCE_FACTOR) (y (velocity sphere)))
             (color sphere) (bounceFactor sphere)
  else sphere.

(** Lines 155-177: both edge checks, bottom first. *)
Definition resolveBoundaries (sphere : Sphere) : Sphere :=
  bounceSides (bounceBottom sphere).

(** Lines 149-177: what the loop body does to [sphere] itself before it
    looks at the other spheres. *)
Definition moveSphere (sphere : Sphere) : Sphere :=
  resolveBoundaries (integrate sphere).

(** Lines 181-183, for the spheres at indices [i] and [j] of the vector:
    the address test [&sphere != &otherSphere] is the index test, and both
    elements are updated in place. *)
Definition collidePair (i j : nat) (spheres : list Sphere) : list Sphere :=
  if decide (i = j) then spheres
  else
    match spheres !! i, spheres !! j with
    | Some sphere, Some otherSphere =>
        let '(sphere', otherSphere') := handleSphereCollision sphere otherSphere in
        <[j := otherSphere']> (<[i := sphere']> spheres)
    | _, _ => spheres
    end.

(** Lines 180-184: the inner loop over the whole vector. *)
Definition collideOthers (i : nat) (spheres : list Sphere) : list Sphere :=
  foldl (fun ss j => collidePair i j ss) spheres (seq 0 (length spheres)).

(** Lines 147-185, one iteration of the outer loop, for index [i]. *)
Definition updateSphere (i : nat) (spheres : list Sphere) : list Sphere :=
  match spheres !! i with
  | Some sphere => collideOthers i (<[i := moveSphere sphere]> spheres)
  | None => spheres
  end.

(** Lines 146-185: "Update all spheres", one tick. *)
Definition updateAll (spheres : list Sphere) : list Sphere :=
  foldl (fun ss i => updateSphere i ss) spheres (seq 0 (length spheres)).

(** [n] ticks in a row. *)
Definition ticks (n : nat) (spheres : list Sphere) : list Sphere :=
  Nat.iter n updateAll spheres.

End Simulation.

Arguments Vector2 D : clear implicits.
Arguments Sphere D : clear implicits.

(** ** The staged tick of the specification

    [tick(dt)] as the specification words it: integrate every body, then
    resolve boundaries for every body, then resolve the collision of every
    unordered pair once.  It is kept apart from [updateAll], which is the
    loop of the source, so that the two can be compared. *)
Section Staged.

Context {D : Type} `{Arith D}.

(** The unordered pairs [(i, j)], [i < j < n], in lexicographic order. *)
Definition unorderedPairs (n : nat) : list (nat * nat) :=
  flat_map (fun i => map (fun j => (i, j)) (seq (S i) (n - S i))) (seq 0 n).

Definition stagedTick (spheres : list (Sphere D)) : list (Sphere D) :=
  let integrated := map integrate spheres in
  let bounded := map resolveBoundaries integrated in
  foldl (fun ss '(i, j) => collidePair i j ss) bounded
        (unorderedPairs (length bounded)).

End Staged.

(** ** Events (lines 131-144)

    What [SDL_PollEvent] delivers, as far as [main] looks at it. *)
Inductive Event : Type :=
| SDL_QUIT
| SDL_MOUSEBUTTONDOWN (button : Z) (ex ey : Z)
| OtherEvent.

Definition SDL_BUTTON_LEFT : Z := 1.

Section Frame.

Context {D : Type} `{Arith D}.

(** The program state the loop carries: the vector and the [quit] flag. *)
Record World : Type := mkWorld { spheres : list (Sphere D); quit : bool }.

(** [palette k] stands for the colour [SDL_MapRGB] returns for the [k]-th
    sphere (three [rand() % 256] draws per sphere, none elsewhere). *)
Definition handleEvent (palette : nat -> Z) (w : World) (e : Event) : World :=
  match e with
  | SDL_QUIT => mkWorld (spheres w) true
  | SDL_MOUSEBUTTONDOWN button ex ey =>
      if Z.eqb button SDL_BUTTON_LEFT
      then mkWorld (spawn ex ey (palette (length (spheres w))) (spheres w)) (quit w)
      else w
  | OtherEvent => w
  end.

(** One iteration of [while (!quit)]: drain the event queue, then tick. *)
Definition frame (palette : nat -> Z) (events : list Event) (w : World) : World :=
  let w' := foldl (handleEvent palette) w events in
  mkWorld (updateAll (spheres w')) (quit w').

End Frame.

Arguments World D : clear implicits.

(** ** Drawing (lines 45-60 and 190-193)

    The window surface, as far as the program touches it: its size in
    pixels, the length of a row in bytes, and the buffer of 32-bit pixels. *)
Record SDL_Surface : Type := mkSurface {
  w : Z;
  h : Z;
  pitch : Z;
  pixels : list Z
}.

(** The implicit conversion [double -> int] at a call of [setPixel]: the
    value truncated towards zero, and no value at all (undefined behaviour)
    when that is not an [int]. *)
Class ToInt (D : Type) : Type := { to_int : D -> option Z }.

Definition in_int_range (z : Z) : option Z :=
  if ((- 2 ^ 31 <=? z) && (z <? 2 ^ 31))%Z then Some z else None.

Definition float_to_int (f : float) : option Z :=
  match Prim2SF f with
  | S754_zero _ => Some 0%Z
  | S754_finite s m e => in_int_range (cond_Zopp s (Z.shiftl (Zpos m) e))
  | S754_infinity _ | S754_nan => None
  end.

#[export] Instance binary64_to_int : ToInt float := {| to_int := float_to_int |}.

Definition R_to_int (r : R) : option Z :=
  in_int_range (if Rle_dec 0 r then Int_part r else (- Int_part (- r))%Z).

#[export] Instance R_to_int_instance : ToInt R := {| to_int := R_to_int |}.

(** [lo, lo + 1, ..., hi], the values of a loop [for (i = lo; i <= hi; ++i)]. *)
Definition range (lo hi : Z) : list Z :=
  map (fun k => (lo + Z.of_nat k)%Z) (seq 0 (Z.to_nat (hi - lo + 1))).

(** Lines 45-50.  The pixel of column [x] and row [y] lives at offset
    [y * pitch / 4 + x] of the buffer.  An [int] product that overflows and
    a write outside the buffer are undefined behaviour and have no result. *)
Definition setPixel (surface : SDL_Surface) (x y : Z) (color : Z) : option SDL_Surface :=
  if ((0 <=? x) && (x <? w surface) && (0 <=? y) && (y <? h surface))%Z then
    match in_int_range (y * pitch surface) with
    | Some row =>
        let index := (Z.quot row 4 + x)%Z in
        if ((0 <=? index) && (index <? Z.of_nat (length (pixels surface))))%Z then
          Some (mkSurface (w surface) (h surface) (pitch surface)
                          (<[Z.to_nat index := color]> (pixels surface)))
        else None
    | None => None
    end
  else Some surface.

(** Line 55, the test [x * x + y * y <= radius * radius] on [int]s; no value
    when a product or the sum overflows. *)
Definition inDisc (x y radius : Z) : option bool :=
  match in_int_range (x * x), in_int_range (y * y), in_int_range (radius * radius) with
  | Some xx, Some yy, Some rr =>
      match in_int_range (xx + yy) with
      | Some d => Some (d <=? rr)%Z
      | None => None
      end
  | _, _, _ => None
  end.

Section Drawing.

Context {D : Type} `{Arith D} `{ToInt D}.

(** Lines 55-57, the body of the two loops for the offsets [x], [y]. *)
Definition drawPoint (cx cy : D) (radius : Z) (color : Z)
    (surface : option SDL_Surface) (x y : Z) : option SDL_Surface :=
  match surface with
  | None => None
  | Some s =>
      match inDisc x y radius with
      | Some true =>
          match to_int (cx + of_int x)%dbl, to_int (cy + of_int y)%dbl with
          | Some px, Some py => setPixel s px py color
          | _, _ => None
          end
      | Some false => Some s
      | None => None
      end
  end.

(** Lines 52-60. *)
Definition drawFilledCircle (surface : SDL_Surface) (center : Vector2 D)
    (radius : Z) (color : Z) : option SDL_Surface :=
  let '(mkVector2 cx cy) := center in
  foldl (fun rows y =>
           foldl (fun row x => drawPoint cx cy radius color row x y)
                 rows (range (- radius) radius))
        (Some surface) (range (- radius) radius).

(** Lines 190-193: "Draw all spheres". *)
Definition drawSpheres (surface : SDL_Surface) (spheres : list (Sphere D))
    : option SDL_Surface :=
  foldl (fun drawn sphere =>
           match drawn with
           | None => None
           | Some s => drawFilledCircle s (position sphere) SPHERE_RADIUS (color sphere)
           end)
        (Some surface) spheres.

End Drawing.

(** How the pixel of column [x] and row [y] is read back. *)
Definition getPixel (surface : SDL_Surface) (x y : Z) : option Z :=
  if ((0 <=? x) && (x <? w surface) && (0 <=? y) && (y <? h surface))%Z then
    pixels surface !! Z.to_nat (Z.quot (y * pitch surface) 4 + x)
  else None.

(** A surface whose rows do not overlap, whose buffer holds [h] rows, and
    whose size in bytes is an [int]. *)
Definition wellFormed (surface : SDL_Surface) : Prop :=
  (0 <= w surface /\ 0 <= h surface /\ 4 * w surface <= pitch surface /\
   Z.quot (h surface * pitch surface) 4 <= Z.of_nat (length (pixels surface)) /\
   h surface * pitch surface < 2 ^ 31)%Z.

Definition sameShape (a b : SDL_Surface) : Prop :=
  w a = w b /\ h a = h b /\ pitch a = pitch b /\
  length (pixels a) = length (pixels b).

(** The offsets of a disc of the given radius that land on pixel
    [(px, py)] when drawn around [(cx, cy)]. *)
Definition covers {D} `{Arith D} `{ToInt D} (center : Vector2 D) (radius : Z)
    (px py : Z) : bool :=
  let '(mkVector2 cx cy) := center in
  existsb (fun dy =>
    existsb (fun dx =>
      (dx * dx + dy * dy <=? radius * radius)%Z
      && bool_decide (to_int (cx + of_int dx)%dbl = Some px)
      && bool_decide (to_int (cy + of_int dy)%dbl = Some py))
      (range (- radius) radius))
    (range (- radius) radius).

(** The pixels of the window. *)
Definition inWindow (surface : SDL_Surface) (x y : Z) : Prop :=
  (0 <= x < w surface /\ 0 <= y < h surface)%Z.

(** The offsets the two loops of [drawFilledCircle] go through, in order. *)
Definition grid (xs ys : list Z) : list (Z * Z) :=
  flat_map (fun y => map (fun x => (x, y)) xs) ys.

Definition isSome (o : option Z) : bool :=
  match o with Some _ => true | None => false end.

(** The conversions of line 56 are defined at the offset [p] of the disc. *)
Definition convertsAt {D} `{Arith D} `{ToInt D} (cx cy : D) (radius : Z)
    (p : Z * Z) : bool :=
  negb (p.1 * p.1 + p.2 * p.2 <=? radius * radius)%Z
  || (isSome (to_int (cx + of_int p.1)%dbl) && isSome (to_int (cy + of_int p.2)%dbl)).

(** The offset [p] is drawn onto pixel [(px, py)]. *)
Definition landsOn {D} `{Arith D} `{ToInt D} (cx cy : D) (radius : Z)
    (px py : Z) (p : Z * Z) : bool :=
  (p.1 * p.1 + p.2 * p.2 <=? radius * radius)%Z
  && bool_decide (to_int (cx + of_int p.1)%dbl = Some px)
  && bool_decide (to_int (cy + of_int p.2)%dbl = Some py).

(** Every conversion [double -> int] the drawing of this disc performs is
    defined. *)
Definition drawable {D} `{Arith D} `{ToInt D} (center : Vector2 D) (radius : Z)
    : bool :=
  let '(mkVector2 cx cy) := center in
  forallb (convertsAt cx cy radius)
          (grid (range (- radius) radius) (range (- radius) radius)).

(** The colour on top at pixel [(px, py)]: that of the last sphere of the
    vector whose disc lands on it, if any. *)
Definition topColor {D} `{Arith D} `{ToInt D} (spheres : list (Sphere D))
    (px py : Z) : option Z :=
  foldl (fun top sphere =>
           if covers (position sphere) SPHERE_RADIUS px py then Some (color sphere)
           else top)
        None spheres.

(** The events that spawn a sphere, and the event that raises [quit]. *)
Definition isLeftClick (e : Event) : bool :=
  match e with
  | SDL_MOUSEBUTTONDOWN button _ _ => Z.eqb button SDL_BUTTON_LEFT
  | _ => false
  end.

Definition isQuit (e : Event) : bool :=
  match e with SDL_QUIT => true | _ => false end.

(** ** Vocabulary of the statements *)

(** [1 + 2 + ... + n]. *)
Fixpoint triangular (n : nat) : nat :=
  match n with
  | O => O
  | S k => S k + triangular k
  end.

(** A sphere as the program holds it: every sphere comes from [spawn], and
    no statement writes [bounceFactor], so it is always [BOUNCE_FACTOR]. *)
Definition ball {D} `{Arith D} (px py vx vy : D) (c : Z) : Sphere D :=
  mkSphere (mkVector2 px py) (mkVector2 vx vy) c BOUNCE_FACTOR.

(** Some edge test of lines 155-177 fires at the centre of [s]. *)
Definition hitsEdge {D} `{Arith D} (s : Sphere D) : bool :=
  (y (position s) + of_int SPHERE_RADIUS >=? of_int SCREEN_HEIGHT)%dbl
  || (x (position s) - of_int SPHERE_RADIUS <=? of_int 0)%dbl
  || (x (position s) + of_int SPHERE_RADIUS >=? of_int SCREEN_WIDTH)%dbl.

(** The first element of the vector of a run on doubles. *)
Definition firstSphere (spheres : list (Sphere float)) : Sphere float :=
  nth 0 spheres (ball 0 0 0 0 0)%float.

(** The arena constraints on a centre, as tests of the arithmetic. *)
Definition withinWallsb {D} `{Arith D} (s : Sphere D) : bool :=
  (of_int SPHERE_RADIUS <=? x (position s))%dbl
  && (x (position s) <=? of_int (SCREEN_WIDTH - SPHERE_RADIUS))%dbl.

Definition aboveFloorb {D} `{Arith D} (s : Sphere D) : bool :=
  (y (position s) <=? of_int (SCREEN_HEIGHT - SPHERE_RADIUS))%dbl.

(** The arena constraints on a centre, in exact arithmetic. *)
Definition withinWalls (s : Sphere R) : Prop :=
  (IZR SPHERE_RADIUS <= x (position s) <= IZR SCREEN_WIDTH - IZR SPHERE_RADIUS)%R.

Definition aboveFloor (s : Sphere R) : Prop :=
  (y (position s) <= IZR SCREEN_HEIGHT - IZR SPHERE_RADIUS)%R.

Definition belowCeiling (s : Sphere R) : Prop :=
  (IZR SPHERE_RADIUS <= y (position s))%R.

(** Spheres falling in separate columns: no horizontal velocity, clear of
    both side walls, and any two at least [2 * radius] apart along [x]. *)
Definition inColumns (l : list (Sphere R)) : Prop :=
  Forall (fun s => x (velocity s) = 0%R /\
                   (IZR SPHERE_RADIUS < x (position s)
                    < IZR SCREEN_WIDTH - IZR SPHERE_RADIUS)%R) l /\
  forall i j a b,
    i <> j -> l !! i = Some a -> l !! j = Some b ->
    (2 * IZR SPHERE_RADIUS <= Rabs (x (position b) - x (position a)))%R.

(** No edge test of lines 155-177 fires at this centre. *)
Definition clearOfEdges (p : Vector2 R) : Prop :=
  (0 < x p - IZR SPHERE_RADIUS /\
   x p + IZR SPHERE_RADIUS < IZR SCREEN_WIDTH /\
   y p + IZR SPHERE_RADIUS < IZR SCREEN_HEIGHT)%R.

(** The worlds the program can be in at the top of its loop: the empty
    world it starts with, and what a frame makes of such a world while the
    [quit] flag is down. *)
Inductive reachable {D} `{Arith D} (palette : nat -> Z) : World D -> Prop :=
| reachable_start : reachable palette (mkWorld [] false)
| reachable_frame (events : list Event) (w : World D) :
    reachable palette w ->
    quit w = false ->
    reachable palette (frame palette events w).

(** The call of line 182 on [a] and [b] changes neither sphere. *)
Definition idle {D} `{Arith D} (a b : Sphere D) : Prop :=
  handleSphereCollision a b = (a, b).

(** The vector at the top of iteration [k] of the outer loop (line 147) of
    the tick that starts from [l]; [updateAll l] is the vector after the
    last iteration. *)
Definition beforeSphere {D} `{Arith D} (k : nat) (l : list (Sphere D))
    : list (Sphere D) :=
  foldl (fun ss i => updateSphere i ss) l (seq 0 k).

(** The vector in that iteration when the inner loop (line 180) reaches
    index [j]: sphere [k] has been moved and has met the spheres of the
    indices below [j]. *)
Definition beforeCall {D} `{Arith D} (k j : nat) (l : list (Sphere D))
    : list (Sphere D) :=
  let ss := beforeSphere k l in
  match ss !! k with
  | Some sphere =>
      foldl (fun ss' j' => collidePair k j' ss') (<[k := moveSphere sphere]> ss) (seq 0 j)
  | None => ss
  end.

(** Sphere [i] touches no other sphere during the tick that starts from
    [l]: every call of line 182 that has it as an argument, as [sphere] or
    as [otherSphere], changes neither sphere. *)
Definition untouched {D} `{Arith D} (i : nat) (l : list (Sphere D)) : Prop :=
  forall k j a b,
    k <> j -> k = i \/ j = i ->
    beforeCall k j l !! k = Some a -> beforeCall k j l !! j = Some b ->
    idle a b.

(** No collision response fires in the tick that starts from [l], in the
    loop of the source or in the staged tick.  When none has fired so far,
    the loop calls line 182 on the moved sphere [i] and every other sphere
    [j], which has been moved already if [j < i] and not yet if [i < j]; the
    staged tick calls it on the moved spheres [i] and [j] for [i < j]. *)
Definition quietTick {D} `{Arith D} (l : list (Sphere D)) : Prop :=
  forall i j a b,
    i <> j -> l !! i = Some a -> l !! j = Some b ->
    idle (moveSphere a) (moveSphere b) /\
    ((i < j)%nat -> idle (moveSphere a) b).

(** * Properties that hold for every arithmetic *)

Section Structural.

Context {D : Type} `{Arith D}.
Local Open Scope double_scope.

Lemma handleSphereCollision_cases (sphere1 sphere2 : Sphere D) :
  handleSphereCollision sphere1 sphere2 =
  if overlapping sphere1 sphere2 then
    if closingSpeed sphere1 sphere2 <? of_int 0 then
      let normal := contactNormal sphere1 sphere2 in
      let impulse :=
        (of_int 2 * closingSpeed sphere1 sphere2)
        / (of_int 1 / bounceFactor sphere1 + of_int 1 / bounceFactor sphere2) in
      let moveDistance :=
        (of_int (2 * SPHERE_RADIUS) - centerDistance sphere1 sphere2) * dec 5 10 in
      (mkSphere
         (mkVector2 (x (position sphere1) - moveDistance * x normal)
                    (y (position sphere1) - moveDistance * y normal))
         (mkVector2
            (x (velocity sphere1) + impulse * (x normal * (of_int 1 / bounceFactor sphere1)))
            (y (velocity sphere1) + impulse * (y normal * (of_int 1 / bounceFactor sphere1))))
         (color sphere1) (bounceFactor sphere1),
       mkSphere
         (mkVector2 (x (position sphere2) + moveDistance * x normal)
                    (y (position sphere2) + moveDistance * y normal))
         (mkVector2
            (x (velocity sphere2) - impulse * (x normal * (of_int 1 / bounceFactor sphere2)))
            (y (velocity sphere2) - impulse * (y normal * (of_int 1 / bounceFactor sphere2))))
         (color sphere2) (bounceFactor sphere2))
    else (sphere1, sphere2)
  else (sphere1, sphere2).
Proof. reflexivity. Qed.

Lemma handleSphereCollision_apart (sphere1 sphere2 : Sphere D) :
  overlapping sphere1 sphere2 = false ->
  handleSphereCollision sphere1 sphere2 = (sphere1, sphere2).
Proof. intros Hov. rewrite handleSphereCollision_cases, Hov. reflexivity. Qed.

Lemma handleSphereCollision_not_closing (sphere1 sphere2 : Sphere D) :
  (closingSpeed sphere1 sphere2 <? of_int 0) = false ->
  handleSphereCollision sphere1 sphere2 = (sphere1, sphere2).
Proof.
  intros Hcs. rewrite handleSphereCollision_cases, Hcs.
  destruct (overlapping sphere1 sphere2); reflexivity.
Qed.

(** Neither the colour nor the bounce factor of a sphere is ever written. *)
Lemma handleSphereCollision_keeps (sphere1 sphere2 : Sphere D) :
  let '(s1, s2) := handleSphereCollision sphere1 sphere2 in
  color s1 = color sphere1 /\ bounceFactor s1 = bounceFactor sphere1 /\
  color s2 = color sphere2 /\ bounceFactor s2 = bounceFactor sphere2.
Proof.
  rewrite handleSphereCollision_cases.
  destruct (overlapping sphere1 sphere2); [|easy].
  destruct (closingSpeed sphere1 sphere2 <? of_int 0); easy.
Qed.

(** A sphere never collides with itself: the index test skips it. *)
Lemma collidePair_same (i : nat) (spheres : list (Sphere D)) :
  collidePair i i spheres = spheres.
Proof. unfold collidePair. case_decide; [reflexivity | congruence]. Qed.

Lemma collidePair_length (i j : nat) (spheres : list (Sphere D)) :
  length (collidePair i j spheres) = length spheres.
Proof.
  unfold collidePair. case_decide; [reflexivity|].
  destruct (spheres !! i) as [s|]; [|reflexivity].
  destruct (spheres !! j) as [o|]; [|reflexivity].
  destruct (handleSphereCollision s o) as [s' o'].
  rewrite !length_insert. reflexivity.
Qed.

Lemma collideOthers_single (sphere : Sphere D) :
  collideOthers 0 [sphere] = [sphere].
Proof. reflexivity. Qed.

(** With one sphere in the world a tick is exactly [moveSphere]. *)
Lemma updateAll_single (sphere : Sphere D) :
  updateAll [sphere] = [moveSphere sphere].
Proof. reflexivity. Qed.

Lemma updateAll_nil : updateAll ([] : list (Sphere D)) = [].
Proof. reflexivity. Qed.

Lemma ticks_single (n : nat) (sphere : Sphere D) :
  ticks n [sphere] = [Nat.iter n moveSphere sphere].
Proof.
  induction n as [|n IH]; [reflexivity|].
  unfold ticks in *. rewrite !Nat.iter_succ, IH. apply updateAll_single.
Qed.

Lemma collidePair_0_1 (a b : Sphere D) :
  collidePair 0 1 [a; b] =
  let '(a', b') := handleSphereCollision a b in [a'; b'].
Proof.
  unfold collidePair. destruct (decide (0 = 1)%nat) as [Heq|_]; [discriminate Heq|].
  cbn. destruct (handleSphereCollision a b); reflexivity.
Qed.

Lemma collidePair_1_0 (a b : Sphere D) :
  collidePair 1 0 [a; b] =
  let '(b', a') := handleSphereCollision b a in [a'; b'].
Proof.
  unfold collidePair. destruct (decide (1 = 0)%nat) as [Heq|_]; [discriminate Heq|].
  cbn. destruct (handleSphereCollision b a); reflexivity.
Qed.

Lemma updateSphere_0_pair (a b : Sphere D) :
  updateSphere 0 [a; b] =
  let '(a', b') := handleSphereCollision (moveSphere a) b in [a'; b'].
Proof.
  unfold updateSphere, collideOthers.
  cbn [lookup list_lookup insert list_insert length seq foldl].
  rewrite collidePair_same. apply collidePair_0_1.
Qed.

Lemma updateSphere_1_pair (a b : Sphere D) :
  updateSphere 1 [a; b] =
  let '(b', a') := handleSphereCollision (moveSphere b) a in [a'; b'].
Proof.
  unfold updateSphere, collideOthers.
  cbn [lookup list_lookup insert list_insert length seq foldl].
  rewrite collidePair_1_0.
  destruct (handleSphereCollision (moveSphere b) a) as [b' a'].
  apply collidePair_same.
Qed.

(** With two spheres: the first moves and meets the second where the
    previous tick left it; then the second moves and meets the first as the
    first collision left it.  The pair is visited twice. *)
Lemma updateAll_pair (a b : Sphere D) :
  updateAll [a; b] =
  let '(a1, b1) := handleSphereCollision (moveSphere a) b in
  let '(b2, a2) := handleSphereCollision (moveSphere b1) a1 in
  [a2; b2].
Proof.
  unfold updateAll. cbn [length seq foldl].
  rewrite updateSphere_0_pair.
  destruct (handleSphereCollision (moveSphere a) b) as [a1 b1].
  apply updateSphere_1_pair.
Qed.

Lemma stagedTick_pair (a b : Sphere D) :
  stagedTick [a; b] =
  let '(a1, b1) := handleSphereCollision (moveSphere a) (moveSphere b) in
  [a1; b1].
Proof.
  unfold stagedTick, unorderedPairs.
  cbn [map length seq flat_map Nat.sub app foldl].
  apply collidePair_0_1.
Qed.

(** *** What the update never writes *)

Lemma moveSphere_bounceFactor (s : Sphere D) :
  bounceFactor (moveSphere s) = bounceFactor s.
Proof.
  unfold moveSphere, resolveBoundaries, bounceSides, bounceBottom, integrate.
  repeat match goal with |- context [if ?c then _ else _] => destruct c end;
    reflexivity.
Qed.

Lemma collidePair_bounceFactor (bf : D) (i j : nat) (spheres : list (Sphere D)) :
  Forall (fun s => bounceFactor s = bf) spheres ->
  Forall (fun s => bounceFactor s = bf) (collidePair i j spheres).
Proof.
  intros Hall. unfold collidePair. case_decide; [exact Hall|].
  destruct (spheres !! i) as [s|] eqn:Hi; [|exact Hall].
  destruct (spheres !! j) as [o|] eqn:Hj; [|exact Hall].
  pose proof (handleSphereCollision_keeps s o) as Hkeep.
  destruct (handleSphereCollision s o) as [s' o'].
  destruct Hkeep as (_ & Hs & _ & Ho).
  apply Forall_insert; [apply Forall_insert; [exact Hall|]|].
  - rewrite Hs. exact (Forall_lookup_1 _ _ _ _ Hall Hi).
  - rewrite Ho. exact (Forall_lookup_1 _ _ _ _ Hall Hj).
Qed.

Lemma updateSphere_bounceFactor (bf : D) (i : nat) (spheres : list (Sphere D)) :
  Forall (fun s => bounceFactor s = bf) spheres ->
  Forall (fun s => bounceFactor s = bf) (updateSphere i spheres).
Proof.
  intros Hall. unfold updateSphere.
  destruct (spheres !! i) as [s|] eqn:Hi; [|exact Hall].
  assert (Hmoved : Forall (fun s => bounceFactor s = bf) (<[i := moveSphere s]> spheres)).
  { apply Forall_insert; [exact Hall|].
    rewrite moveSphere_bounceFactor. exact (Forall_lookup_1 _ _ _ _ Hall Hi). }
  unfold collideOthers. generalize (seq 0 (length (<[i := moveSphere s]> spheres))).
  revert Hmoved. generalize (<[i := moveSphere s]> spheres).
  intros l Hl js. revert l Hl.
  induction js as [|j js IH]; intros l Hl; [exact Hl|].
  cbn [foldl]. apply IH, collidePair_bounceFactor, Hl.
Qed.

Lemma updateAll_bounceFactor (bf : D) (spheres : list (Sphere D)) :
  Forall (fun s => bounceFactor s = bf) spheres ->
  Forall (fun s => bounceFactor s = bf) (updateAll spheres).
Proof.
  unfold updateAll. generalize (seq 0 (length spheres)).
  intros indices. revert spheres.
  induction indices as [|i indices IH]; intros l Hl; [exact Hl|].
  cbn [foldl]. apply IH, updateSphere_bounceFactor, Hl.
Qed.

Lemma handleEvent_bounceFactor (palette : nat -> Z) (w : World D) (e : Event) :
  Forall (fun s => bounceFactor s = BOUNCE_FACTOR) (spheres w) ->
  Forall (fun s => bounceFactor s = BOUNCE_FACTOR) (spheres (handleEvent palette w e)).
Proof.
  intros Hall. destruct e as [|button ex ey|]; cbn [handleEvent spheres];
    [exact Hall| |exact Hall].
  destruct (Z.eqb button SDL_BUTTON_LEFT); [|exact Hall].
  cbn [spheres]. unfold spawn. apply Forall_app. split; [exact Hall|].
  repeat constructor.
Qed.

(** X8.  Every sphere the program ever holds has the constant bounce
    factor [BOUNCE_FACTOR]: it is set when the sphere is spawned and nothing
    writes it afterwards. *)
Lemma reachable_bounceFactor (palette : nat -> Z) (w : World D) :
  reachable palette w ->
  Forall (fun s => bounceFactor s = BOUNCE_FACTOR) (spheres w).
Proof.
  induction 1 as [|events w _ IH _]; [constructor|].
  unfold frame. cbn [spheres]. apply updateAll_bounceFactor.
  revert w IH. induction events as [|e events IHe]; intros w Hw; [exact Hw|].
  cbn [foldl]. apply IHe, handleEvent_bounceFactor, Hw.
Qed.

Lemma stagedTick_single (sphere : Sphere D) :
  stagedTick [sphere] = [moveSphere sphere].
Proof. reflexivity. Qed.

(** *** The loop, call by call *)

Lemma updateAll_beforeSphere (l : list (Sphere D)) :
  updateAll l = beforeSphere (length l) l.
Proof. reflexivity. Qed.

Lemma beforeSphere_S (k : nat) (l : list (Sphere D)) :
  beforeSphere (S k) l = updateSphere k (beforeSphere k l).
Proof. unfold beforeSphere. rewrite seq_S, foldl_app. reflexivity. Qed.

Lemma beforeCall_S (k j : nat) (l : list (Sphere D)) :
  beforeCall k (S j) l = collidePair k j (beforeCall k j l).
Proof.
  unfold beforeCall. cbv zeta. destruct (beforeSphere k l !! k) as [s|] eqn:Hk.
  - rewrite seq_S, foldl_app. reflexivity.
  - unfold collidePair. case_decide; [reflexivity|]. rewrite Hk. reflexivity.
Qed.

(** An iteration of the outer loop ends when the inner loop has gone
    through the whole vector. *)
Lemma updateSphere_beforeCall (k : nat) (l : list (Sphere D)) :
  updateSphere k (beforeSphere k l)
  = beforeCall k (length (beforeSphere k l)) l.
Proof.
  unfold updateSphere, beforeCall, collideOthers. cbv zeta.
  destruct (beforeSphere k l !! k) as [s|]; [|reflexivity].
  rewrite length_insert. reflexivity.
Qed.

Lemma collideOthers_length (k : nat) (js : list nat) (st : list (Sphere D)) :
  length (foldl (fun ss j => collidePair k j ss) st js) = length st.
Proof.
  revert st. induction js as [|j js IH]; intros st; [reflexivity|].
  cbn [foldl]. rewrite IH. apply collidePair_length.
Qed.

Lemma updateSphere_length (k : nat) (st : list (Sphere D)) :
  length (updateSphere k st) = length st.
Proof.
  unfold updateSphere, collideOthers. destruct (st !! k) as [s|]; [|reflexivity].
  rewrite collideOthers_length. apply length_insert.
Qed.

Lemma beforeSphere_length (k : nat) (l : list (Sphere D)) :
  length (beforeSphere k l) = length l.
Proof.
  induction k as [|k IH]; [reflexivity|].
  rewrite beforeSphere_S, updateSphere_length. exact IH.
Qed.

Lemma beforeCall_length (k j : nat) (l : list (Sphere D)) :
  length (beforeCall k j l) = length l.
Proof.
  unfold beforeCall. cbv zeta. destruct (beforeSphere k l !! k) as [s|].
  - rewrite collideOthers_length, length_insert. apply beforeSphere_length.
  - apply beforeSphere_length.
Qed.

(** A call that changes neither sphere leaves the vector as it was. *)
Lemma collidePair_idle (k j : nat) (st : list (Sphere D)) :
  (forall a b, k <> j -> st !! k = Some a -> st !! j = Some b -> idle a b) ->
  collidePair k j st = st.
Proof.
  intros Hidle. unfold collidePair. case_decide as Hkj; [reflexivity|].
  destruct (st !! k) as [a|] eqn:Hk; [|reflexivity].
  destruct (st !! j) as [b|] eqn:Hj; [|reflexivity].
  rewrite (Hidle a b Hkj eq_refl eq_refl).
  rewrite (list_insert_id st k a Hk). apply list_insert_id, Hj.
Qed.

(** A call writes the two spheres it is made on and no other. *)
Lemma collidePair_other (k j m : nat) (st : list (Sphere D)) :
  m <> k -> m <> j -> collidePair k j st !! m = st !! m.
Proof.
  intros Hk Hj. unfold collidePair. case_decide; [reflexivity|].
  destruct (st !! k) as [a|]; [|reflexivity].
  destruct (st !! j) as [b|]; [|reflexivity].
  destruct (handleSphereCollision a b) as [a' b'].
  rewrite !list_lookup_insert_ne by congruence. reflexivity.
Qed.

(** The inner loop leaves a sphere that touches no other where the
    movement step of the iteration left it. *)
Lemma beforeCall_untouched (i k j : nat) (l : list (Sphere D)) :
  untouched i l -> beforeCall k j l !! i = beforeCall k 0 l !! i.
Proof.
  intros Hfree. induction j as [|j IH]; [reflexivity|].
  rewrite beforeCall_S, <- IH.
  destruct (decide (k = j)) as [->|Hkj]; [rewrite collidePair_same; reflexivity|].
  destruct (decide (k = i \/ j = i)) as [Hi|Hi].
  - rewrite collidePair_idle; [reflexivity|].
    intros a b _ Ha Hb. exact (Hfree k j a b Hkj Hi Ha Hb).
  - apply collidePair_other; intros ->; apply Hi; auto.
Qed.

Lemma beforeSphere_untouched (i : nat) (l : list (Sphere D)) (s : Sphere D) (k : nat) :
  untouched i l ->
  l !! i = Some s ->
  beforeSphere k l !! i = Some (if decide (i < k)%nat then moveSphere s else s).
Proof.
  intros Hfree Hi. induction k as [|k IH].
  - case_decide; [lia | exact Hi].
  - rewrite beforeSphere_S, updateSphere_beforeCall, (beforeCall_untouched i) by exact Hfree.
    unfold beforeCall. cbv zeta. cbn [seq foldl].
    destruct (decide (k = i)) as [->|Hki].
    + rewrite IH. destruct (decide (i < i)%nat) as [Hlt|_]; [lia|].
      rewrite list_lookup_insert_eq by (eapply lookup_lt_Some; exact IH).
      case_decide; [reflexivity | lia].
    + assert (Hsame : beforeSphere k l !! i
                      = Some (if decide (i < S k)%nat then moveSphere s else s)).
      { rewrite IH. repeat case_decide; try lia; reflexivity. }
      destruct (beforeSphere k l !! k) as [sk|]; [|exact Hsame].
      rewrite list_lookup_insert_ne by exact Hki. exact Hsame.
Qed.

(** A sphere that touches no other goes through the tick as if it were
    alone: the tick is [moveSphere] on it. *)
Lemma updateAll_untouched (i : nat) (l : list (Sphere D)) (s : Sphere D) :
  untouched i l ->
  l !! i = Some s ->
  updateAll l !! i = Some (moveSphere s).
Proof.
  intros Hfree Hi.
  rewrite updateAll_beforeSphere, (beforeSphere_untouched i l s _ Hfree Hi).
  apply lookup_lt_Some in Hi. case_decide; [reflexivity | lia].
Qed.

Lemma ticks_untouched (i n : nat) (l : list (Sphere D)) (s : Sphere D) :
  (forall t, (t < n)%nat -> untouched i (ticks t l)) ->
  l !! i = Some s ->
  ticks n l !! i = Some (Nat.iter n moveSphere s).
Proof.
  intros Hfree Hi. induction n as [|n IH]; [exact Hi|].
  unfold ticks in *. rewrite !Nat.iter_succ.
  apply updateAll_untouched; [apply Hfree; lia | apply IH].
  intros t Ht. apply Hfree. lia.
Qed.

(** To check [untouched] it is enough to look at the indices of the
    vector. *)
Lemma untouched_within (i : nat) (l : list (Sphere D)) :
  (forall k j, (k < length l)%nat -> (j < length l)%nat ->
               k <> j -> k = i \/ j = i ->
               forall a b, beforeCall k j l !! k = Some a ->
                           beforeCall k j l !! j = Some b -> idle a b) ->
  untouched i l.
Proof.
  intros Hin k j a b Hkj Hi Ha Hb.
  apply (Hin k j); try assumption.
  - apply lookup_lt_Some in Ha. rewrite beforeCall_length in Ha. exact Ha.
  - apply lookup_lt_Some in Hb. rewrite beforeCall_length in Hb. exact Hb.
Qed.

(** *** A tick in which no response fires *)

Lemma collideOthers_idle (k : nat) (js : list nat) (st : list (Sphere D)) :
  (forall j, collidePair k j st = st) ->
  foldl (fun ss j => collidePair k j ss) st js = st.
Proof.
  intros Hidle. induction js as [|j js IH]; [reflexivity|].
  cbn [foldl]. rewrite Hidle. exact IH.
Qed.

(** The vector in which the spheres below index [k] have been moved. *)
Lemma moved_below_insert (l st : list (Sphere D)) (k : nat) (s : Sphere D) :
  (forall m, st !! m = if decide (m < k)%nat then moveSphere <$> l !! m else l !! m) ->
  l !! k = Some s ->
  forall m, <[k := moveSphere s]> st !! m
            = if decide (m < S k)%nat then moveSphere <$> l !! m else l !! m.
Proof.
  intros Hst Hk m. destruct (decide (m = k)) as [->|Hne].
  - rewrite list_lookup_insert_eq.
    + rewrite Hk. case_decide; [reflexivity | lia].
    + apply (lookup_lt_Some _ _ s). rewrite Hst. case_decide; [lia | exact Hk].
  - rewrite list_lookup_insert_ne by congruence. rewrite Hst.
    repeat case_decide; try lia; reflexivity.
Qed.

(** With sphere [k] moved as well, no call of its inner loop changes
    anything when no response fires. *)
Lemma quiet_collidePair (l st : list (Sphere D)) (k j : nat) (s : Sphere D) :
  quietTick l ->
  (forall m, st !! m = if decide (m < S k)%nat then moveSphere <$> l !! m else l !! m) ->
  l !! k = Some s ->
  collidePair k j st = st.
Proof.
  intros Hquiet Hst Hk. apply collidePair_idle. intros a b Hkj Ha Hb.
  rewrite Hst in Ha, Hb. rewrite Hk in Ha.
  destruct (decide (k < S k)%nat) as [_|Hge]; [|lia].
  cbn in Ha. injection Ha as <-.
  destruct (decide (j < S k)%nat) as [Hlt|Hge].
  - destruct (l !! j) as [sj|] eqn:Hj; [|discriminate Hb].
    cbn in Hb. injection Hb as <-.
    exact (proj1 (Hquiet k j s sj Hkj Hk Hj)).
  - apply (proj2 (Hquiet k j s b Hkj Hk Hb)). lia.
Qed.

Lemma quiet_beforeSphere (l : list (Sphere D)) (k : nat) :
  quietTick l ->
  forall m, beforeSphere k l !! m
            = if decide (m < k)%nat then moveSphere <$> l !! m else l !! m.
Proof.
  intros Hquiet. induction k as [|k IH]; intros m.
  - case_decide; [lia | reflexivity].
  - rewrite beforeSphere_S. unfold updateSphere.
    pose proof (IH k) as Hk. destruct (decide (k < k)%nat) as [Hlt|_]; [lia|].
    rewrite Hk. destruct (l !! k) as [s|] eqn:Hlk.
    + unfold collideOthers. rewrite collideOthers_idle.
      * apply (moved_below_insert l _ k s IH Hlk).
      * intros j. apply (quiet_collidePair l _ k j s Hquiet); [|exact Hlk].
        apply (moved_below_insert l _ k s IH Hlk).
    + rewrite IH. destruct (decide (m = k)) as [->|Hne].
      * rewrite Hlk. repeat case_decide; reflexivity.
      * repeat case_decide; try lia; reflexivity.
Qed.

(** When no response fires the loop of the source is [moveSphere] on every
    sphere. *)
Lemma quiet_updateAll (l : list (Sphere D)) :
  quietTick l -> updateAll l = map moveSphere l.
Proof.
  intros Hquiet. apply list_eq. intros m.
  rewrite updateAll_beforeSphere, (quiet_beforeSphere l _ Hquiet).
  change (map moveSphere l) with (moveSphere <$> l). rewrite list_lookup_fmap.
  case_decide as Hm; [reflexivity|].
  rewrite (proj2 (lookup_ge_None l m)) by lia. reflexivity.
Qed.

(** And so is the staged tick. *)
Lemma quiet_stagedTick (l : list (Sphere D)) :
  quietTick l -> stagedTick l = map moveSphere l.
Proof.
  intros Hquiet. unfold stagedTick. cbv zeta. rewrite map_map.
  change (map (fun s => resolveBoundaries (integrate s)) l) with (map moveSphere l).
  generalize (unorderedPairs (length (map moveSphere l))). intros pairs.
  induction pairs as [|[i j] pairs IH]; [reflexivity|].
  cbn [foldl]. rewrite collidePair_idle; [exact IH|].
  intros a b Hij Ha Hb.
  change (map moveSphere l) with (moveSphere <$> l) in Ha, Hb.
  rewrite list_lookup_fmap in Ha, Hb.
  destruct (l !! i) as [si|] eqn:Hi; [|discriminate Ha].
  destruct (l !! j) as [sj|] eqn:Hj; [|discriminate Hb].
  cbn in Ha, Hb. injection Ha as <-. injection Hb as <-.
  exact (proj1 (Hquiet i j si sj Hij Hi Hj)).
Qed.

(** A tick in which no response fires touches no sphere. *)
Lemma quiet_untouched (i : nat) (l : list (Sphere D)) :
  quietTick l -> untouched i l.
Proof.
  intros Hquiet k j a b Hkj _ Ha Hb.
  unfold beforeCall in Ha, Hb. cbv zeta in Ha, Hb.
  pose proof (quiet_beforeSphere l k Hquiet) as Hst.
  pose proof (Hst k) as Hk. destruct (decide (k < k)%nat) as [Hlt|_]; [lia|].
  rewrite Hk in Ha, Hb.
  destruct (l !! k) as [s|] eqn:Hlk.
  - rewrite collideOthers_idle in Ha, Hb
      by (intros j'; apply (quiet_collidePair l _ k j' s Hquiet);
          [apply (moved_below_insert l _ k s Hst Hlk) | exact Hlk]).
    pose proof (quiet_collidePair l _ k j s Hquiet
                  (moved_below_insert l _ k s Hst Hlk) Hlk) as Hidle.
    unfold collidePair in Hidle.
    destruct (decide (k = j)) as [Heq|_]; [contradiction|].
    rewrite Ha, Hb in Hidle.
    unfold idle. destruct (handleSphereCollision a b) as [a' b'].
    f_equal.
    + apply (f_equal (fun st => st !! k)) in Hidle.
      rewrite list_lookup_insert_ne in Hidle by congruence.
      rewrite list_lookup_insert_eq in Hidle by (eapply lookup_lt_Some; exact Ha).
      congruence.
    + apply (f_equal (fun st => st !! j)) in Hidle.
      rewrite list_lookup_insert_eq in Hidle
        by (rewrite length_insert; eapply lookup_lt_Some; exact Hb).
      congruence.
  - rewrite Hk in Ha. discriminate Ha.
Qed.

End Structural.

(** * Spawning and the edge checks, for every arithmetic *)

Section StructuralClaims.

Context {D : Type} `{Arith D}.
Local Open Scope double_scope.

Lemma handleEvent_left_click (palette : nat -> Z) (w : World D) (ex ey : Z) :
  spheres (handleEvent palette w (SDL_MOUSEBUTTONDOWN SDL_BUTTON_LEFT ex ey))
  = spawn ex ey (palette (length (spheres w))) (spheres w).
Proof. reflexivity. Qed.

(** C9. [spawn ex ey c] grows the vector by exactly one element, placed
    last; that element sits at [(ex, ey)] with zero velocity and the constant
    [BOUNCE_FACTOR] (the radius is no field: every sphere uses
    [SPHERE_RADIUS]); and every sphere that was in the vector is still there,
    at the same index, with all its fields as they were. *)
Theorem spawn_appends_one (ex ey c : Z) (spheres : list (Sphere D)) :
  length (spawn ex ey c spheres) = S (length spheres) /\
  (exists s,
      spawn ex ey c spheres !! length spheres = Some s /\
      position s = mkVector2 (of_int ex) (of_int ey) /\
      velocity s = mkVector2 (of_int 0) (of_int 0) /\
      bounceFactor s = BOUNCE_FACTOR /\
      color s = c) /\
  (forall i s, spheres !! i = Some s -> spawn ex ey c spheres !! i = Some s) /\
  (forall i, (i > length spheres)%nat -> spawn ex ey c spheres !! i = None).
Proof.
  unfold spawn. repeat split.
  - rewrite length_app. simpl. lia.
  - exists (newSphere ex ey c). split; [|repeat split].
    rewrite lookup_app_r by lia. rewrite Nat.sub_diag. reflexivity.
  - intros i s Hi. rewrite lookup_app_l; [exact Hi|].
    eapply lookup_lt_Some; exact Hi.
  - intros i Hi. apply lookup_ge_None. rewrite length_app. simpl. lia.
Qed.

Lemma bounceBottom_reads (a b : Sphere D) :
  position a = position b ->
  velocity a = velocity b ->
  position (bounceBottom a) = position (bounceBottom b) /\
  velocity (bounceBottom a) = velocity (bounceBottom b).
Proof.
  intros Hp Hv. unfold bounceBottom. rewrite Hp, Hv.
  destruct (y (position b) + of_int SPHERE_RADIUS >=? of_int SCREEN_HEIGHT);
    cbn [position velocity]; auto.
Qed.

Lemma bounceSides_reads (a b : Sphere D) :
  position a = position b ->
  velocity a = velocity b ->
  position (bounceSides a) = position (bounceSides b) /\
  velocity (bounceSides a) = velocity (bounceSides b).
Proof.
  intros Hp Hv. unfold bounceSides. rewrite Hp, Hv.
  destruct (x (position b) - of_int SPHERE_RADIUS <=? of_int 0);
    cbn [position velocity]; auto.
  destruct (x (position b) + of_int SPHERE_RADIUS >=? of_int SCREEN_WIDTH);
    cbn [position velocity]; auto.
Qed.

Lemma bounceBottom_bounceFactor (s : Sphere D) :
  bounceFactor (bounceBottom s) = bounceFactor s.
Proof. unfold bounceBottom. destruct (_ >=? _); reflexivity. Qed.

Lemma bounceSides_bounceFactor (s : Sphere D) :
  bounceFactor (bounceSides s) = bounceFactor s.
Proof. unfold bounceSides. destruct (_ <=? _); [|destruct (_ >=? _)]; reflexivity. Qed.

(** C10. The edge checks never read the sphere's own [bounceFactor]: two
    spheres with the same position and velocity leave [resolveBoundaries]
    with the same position and velocity, whatever their bounce factors are,
    and each keeps its own bounce factor. *)
Theorem resolveBoundaries_ignores_bounceFactor (a b : Sphere D) :
  position a = position b ->
  velocity a = velocity b ->
  position (resolveBoundaries a) = position (resolveBoundaries b) /\
  velocity (resolveBoundaries a) = velocity (resolveBoundaries b) /\
  bounceFactor (resolveBoundaries a) = bounceFactor a /\
  bounceFactor (resolveBoundaries b) = bounceFactor b.
Proof.
  intros Hp Hv. unfold resolveBoundaries.
  destruct (bounceBottom_reads a b Hp Hv) as [Hp1 Hv1].
  destruct (bounceSides_reads _ _ Hp1 Hv1) as [Hp2 Hv2].
  rewrite !bounceSides_bounceFactor, !bounceBottom_bounceFactor.
  auto.
Qed.

(** C4, as amended. In a vector of any length, a sphere that touches no
    other sphere during the tick and whose integrated position passes the
    bottom-edge test of line 155 and neither side test ends the tick at
    [y = height - radius] exactly, with vertical velocity
    [-(v + GRAVITY) * BOUNCE_FACTOR], where [v] is its vertical velocity at
    the start of the tick: gravity is added before the bounce, and the
    factor is the global constant, not the sphere's own field. *)
Theorem floor_bounce (spheres : list (Sphere D)) (i : nat) (s : Sphere D) :
  spheres !! i = Some s ->
  untouched i spheres ->
  (x (position (integrate s)) - of_int SPHERE_RADIUS <=? of_int 0) = false ->
  (x (position (integrate s)) + of_int SPHERE_RADIUS >=? of_int SCREEN_WIDTH) = false ->
  (y (position (integrate s)) + of_int SPHERE_RADIUS >=? of_int SCREEN_HEIGHT) = true ->
  updateAll spheres !! i =
  Some (mkSphere (mkVector2 (x (position s) + x (velocity s))
                            (of_int (SCREEN_HEIGHT - SPHERE_RADIUS)))
                 (mkVector2 (x (velocity s))
                            (- (y (velocity s) + GRAVITY) * BOUNCE_FACTOR))
                 (color s) (bounceFactor s)).
Proof.
  intros Hi Hfree Hleft Hright Hbottom.
  rewrite (updateAll_untouched i spheres s Hfree Hi). f_equal.
  unfold moveSphere, resolveBoundaries, bounceBottom. rewrite Hbottom.
  unfold bounceSides. cbn [position velocity color bounceFactor x y].
  cbn [integrate Vector2_plus position velocity x y] in Hleft, Hright.
  cbn [integrate Vector2_plus position velocity color bounceFactor x y].
  rewrite Hleft, Hright. reflexivity.
Qed.

End StructuralClaims.

(** * The update in exact arithmetic *)

Section RealModel.

Local Open Scope R_scope.

Lemma Rltb_true (a b : R) : a < b -> Rltb a b = true.
Proof. intros Hab. unfold Rltb. destruct (Rlt_dec a b); [reflexivity | contradiction]. Qed.

Lemma Rltb_false (a b : R) : b <= a -> Rltb a b = false.
Proof. intros Hab. unfold Rltb. destruct (Rlt_dec a b); [lra | reflexivity]. Qed.

Lemma Rleb_true (a b : R) : a <= b -> Rleb a b = true.
Proof. intros Hab. unfold Rleb. destruct (Rle_dec a b); [reflexivity | contradiction]. Qed.

Lemma Rleb_false (a b : R) : b < a -> Rleb a b = false.
Proof. intros Hab. unfold Rleb. destruct (Rle_dec a b); [lra | reflexivity]. Qed.

Lemma Rleb_cases (a b : R) :
  (a <= b /\ Rleb a b = true) \/ (b < a /\ Rleb a b = false).
Proof. destruct (Rle_lt_dec a b); [left|right]; auto using Rleb_true, Rleb_false. Qed.

(** Reads the interface operations at [R] and the integer constants as
    numerals, so that [lra] sees plain real arithmetic. *)
Ltac real_arith :=
  unfold GRAVITY, BOUNCE_FACTOR, dec in *;
  cbn [dadd dsub dmul ddiv dneg dsqrt dlt dle of_int R_arith] in *;
  change (IZR SPHERE_RADIUS) with 20 in *;
  change (IZR SCREEN_HEIGHT) with 480 in *;
  change (IZR SCREEN_WIDTH) with 640 in *;
  change (IZR (SCREEN_HEIGHT - SPHERE_RADIUS)) with 460 in *;
  change (IZR (SCREEN_WIDTH - SPHERE_RADIUS)) with 620 in *;
  change (IZR (2 * SPHERE_RADIUS)) with 40 in *.

Ltac fields := cbn [position velocity color bounceFactor x y] in *.

Lemma sphere_eq (p1 p2 q1 q2 v1 v2 w1 w2 b1 b2 : R) (c : Z) :
  p1 = p2 -> q1 = q2 -> v1 = v2 -> w1 = w2 -> b1 = b2 ->
  mkSphere (mkVector2 p1 q1) (mkVector2 v1 w1) c b1
  = mkSphere (mkVector2 p2 q2) (mkVector2 v2 w2) c b2.
Proof. intros; subst; reflexivity. Qed.

(** ** One sphere: integration and the edges *)

Lemma resolveBoundaries_inside (s : Sphere R) :
  withinWalls (resolveBoundaries s) /\ aboveFloor (resolveBoundaries s).
Proof.
  unfold withinWalls, aboveFloor, resolveBoundaries, bounceSides, bounceBottom.
  real_arith.
  destruct (Rleb_cases 480 (y (position s) + 20)) as [[Hb ->]|[Hb ->]]; fields.
  all: destruct (Rleb_cases (x (position s) - 20) 0) as [[Hl ->]|[Hl ->]]; fields.
  all: try destruct (Rleb_cases 640 (x (position s) + 20)) as [[Hr ->]|[Hr ->]]; fields.
  all: lra.
Qed.

(** The loop body on a sphere that meets no edge: plain semi-implicit Euler. *)
Lemma moveSphere_free (s : Sphere R) :
  clearOfEdges (position (integrate s)) ->
  moveSphere s =
  mkSphere (mkVector2 (x (position s) + x (velocity s))
                      (y (position s) + (y (velocity s) + GRAVITY)))
           (mkVector2 (x (velocity s)) (y (velocity s) + GRAVITY))
           (color s) (bounceFactor s).
Proof.
  unfold clearOfEdges, moveSphere, resolveBoundaries, bounceSides, bounceBottom,
    integrate, Vector2_plus.
  real_arith. fields. intros (Hl & Hr & Hb).
  rewrite (Rleb_false 480) by lra. fields.
  rewrite (Rleb_false _ 0) by lra.
  rewrite (Rleb_false 640) by lra.
  reflexivity.
Qed.

(** The loop body on a sphere that reaches the bottom edge and no side. *)
Lemma moveSphere_floor (s : Sphere R) :
  0 < x (position (integrate s)) - IZR SPHERE_RADIUS ->
  x (position (integrate s)) + IZR SPHERE_RADIUS < IZR SCREEN_WIDTH ->
  y (position (integrate s)) + IZR SPHERE_RADIUS >= IZR SCREEN_HEIGHT ->
  moveSphere s =
  mkSphere (mkVector2 (x (position s) + x (velocity s))
                      (IZR SCREEN_HEIGHT - IZR SPHERE_RADIUS))
           (mkVector2 (x (velocity s)) (- (y (velocity s) + GRAVITY) * BOUNCE_FACTOR))
           (color s) (bounceFactor s).
Proof.
  unfold moveSphere, resolveBoundaries, bounceSides, bounceBottom,
    integrate, Vector2_plus.
  real_arith. fields. intros Hl Hr Hb.
  rewrite (Rleb_true 480) by lra. fields.
  rewrite (Rleb_false _ 0) by lra.
  rewrite (Rleb_false 640) by lra.
  apply sphere_eq; lra.
Qed.

Lemma INR_triangular_succ (n : nat) :
  INR (triangular (S n)) = INR (S n) + INR (triangular n).
Proof. cbn [triangular]. rewrite plus_INR. reflexivity. Qed.

Lemma triangular_closed (n : nat) :
  2 * INR (triangular n) = INR n * (INR n + 1).
Proof.
  induction n as [|n IH]; [simpl; lra|].
  rewrite INR_triangular_succ, S_INR. lra.
Qed.

(** [n] free-fall steps from rest, provided the last one is still clear of
    the edges (the fall is monotone, so the earlier ones are as well). *)
Lemma free_fall_iter (x0 y0 bf : R) (c : Z) (n : nat) :
  clearOfEdges (mkVector2 x0 (y0 + GRAVITY * INR (triangular n))) ->
  Nat.iter n moveSphere (mkSphere (mkVector2 x0 y0) (mkVector2 0 0) c bf)
  = mkSphere (mkVector2 x0 (y0 + GRAVITY * INR (triangular n)))
             (mkVector2 0 (INR n * GRAVITY)) c bf.
Proof.
  induction n as [|n IH]; intros Hclear.
  - cbn [Nat.iter triangular]. apply sphere_eq; simpl; lra.
  - assert (Hpos : 0 <= INR n) by apply pos_INR.
    assert (Htri : 0 <= INR (triangular n)) by apply pos_INR.
    rewrite Nat.iter_succ, IH.
    + rewrite moveSphere_free.
      * fields. rewrite INR_triangular_succ, S_INR. real_arith.
        apply sphere_eq; lra.
      * unfold clearOfEdges, integrate, Vector2_plus in *. fields.
        rewrite INR_triangular_succ, S_INR in Hclear. real_arith. lra.
    + unfold clearOfEdges in *. fields.
      rewrite INR_triangular_succ, S_INR in Hclear. real_arith. lra.
Qed.

(** After its own integration and edge checks a sphere is between the side
    walls and above the floor. *)
Lemma moveSphere_inside_exact (s : Sphere R) :
  withinWalls (moveSphere s) /\ aboveFloor (moveSphere s).
Proof. unfold moveSphere. apply resolveBoundaries_inside. Qed.

(** A sphere spawned by a click on the top row of the window ends the next
    tick at [y = 0.2], above [y = radius]. *)
Lemma ceiling_not_enforced_exact :
  updateAll (spawn 100 0 7 [])
  = [mkSphere (mkVector2 100 0.2) (mkVector2 0 0.2) 7 BOUNCE_FACTOR] /\
  ~ belowCeiling (mkSphere (mkVector2 100 0.2) (mkVector2 0 0.2) 7 BOUNCE_FACTOR).
Proof.
  split.
  - unfold spawn, newSphere. cbn [app]. rewrite updateAll_single.
    rewrite moveSphere_free.
    + fields. real_arith. f_equal. apply sphere_eq; lra.
    + unfold clearOfEdges, integrate, Vector2_plus. fields. real_arith. lra.
  - unfold belowCeiling. fields. real_arith. lra.
Qed.


(** A sphere one pixel above its resting height, falling at [v = 1], crosses
    the floor in one tick and ends it with vertical velocity
    [-0.96 = -(1 + 0.2) * 0.8], not [-v * restitution = -0.8]. *)
Lemma floor_bounce_exact :
  let s := mkSphere (mkVector2 100 459) (mkVector2 0 1) 7 BOUNCE_FACTOR in
  0 < y (velocity s) /\
  y (position s) + IZR SPHERE_RADIUS < IZR SCREEN_HEIGHT /\
  updateAll [s]
  = [mkSphere (mkVector2 100 460) (mkVector2 0 (-0.96)) 7 BOUNCE_FACTOR] /\
  -0.96 <> - y (velocity s) * bounceFactor s /\
  -0.96 <> - y (velocity s) * BOUNCE_FACTOR.
Proof.
  cbv zeta. fields. repeat split.
  - lra.
  - real_arith. lra.
  - rewrite updateAll_single, moveSphere_floor.
    + fields. real_arith. f_equal. apply sphere_eq; lra.
    + unfold integrate, Vector2_plus. fields. real_arith. lra.
    + unfold integrate, Vector2_plus. fields. real_arith. lra.
    + unfold integrate, Vector2_plus. fields. real_arith. lra.
  - real_arith. lra.
  - real_arith. lra.
Qed.

(** ** Two spheres: [handleSphereCollision] *)

Lemma sum_sqr_nonneg (a b : R) : 0 <= a * a + b * b.
Proof.
  pose proof (Rle_0_sqr a) as Ha. pose proof (Rle_0_sqr b) as Hb.
  unfold Rsqr in *. lra.
Qed.

Lemma sum_sqr_zero (a b : R) : a * a + b * b = 0 -> a = 0 /\ b = 0.
Proof.
  intros Hsum.
  pose proof (Rle_0_sqr a) as Ha. pose proof (Rle_0_sqr b) as Hb.
  unfold Rsqr in *.
  split; apply Rsqr_0_uniq; unfold Rsqr; lra.
Qed.

Lemma centerDistance_eq (s1 s2 : Sphere R) (d : R) :
  0 <= d ->
  d * d = (x (position s2) - x (position s1)) * (x (position s2) - x (position s1))
          + (y (position s2) - y (position s1)) * (y (position s2) - y (position s1)) ->
  centerDistance s1 s2 = d.
Proof.
  intros Hd Hsq. unfold centerDistance, Vector2_minus. real_arith. fields.
  apply sqrt_lem_1; [apply sum_sqr_nonneg|exact Hd|exact Hsq].
Qed.

Lemma centerDistance_nonneg (s1 s2 : Sphere R) : 0 <= centerDistance s1 s2.
Proof. unfold centerDistance. real_arith. apply sqrt_pos. Qed.

Lemma centerDistance_sqr (s1 s2 : Sphere R) :
  centerDistance s1 s2 * centerDistance s1 s2
  = (x (position s2) - x (position s1)) * (x (position s2) - x (position s1))
    + (y (position s2) - y (position s1)) * (y (position s2) - y (position s1)).
Proof.
  unfold centerDistance, Vector2_minus. real_arith. fields.
  apply sqrt_sqrt, sum_sqr_nonneg.
Qed.

(** Coincident centres have closing speed [0] in exact arithmetic, so a
    negative closing speed means the centres are apart. *)
Lemma closing_centres_apart (s1 s2 : Sphere R) :
  closingSpeed s1 s2 < 0 -> 0 < centerDistance s1 s2.
Proof.
  intros Hcs.
  destruct (Rle_lt_or_eq_dec _ _ (centerDistance_nonneg s1 s2)) as [Hpos|Hzero];
    [exact Hpos|exfalso].
  pose proof (centerDistance_sqr s1 s2) as Hsq. rewrite <- Hzero in Hsq.
  rewrite Rmult_0_l in Hsq. symmetry in Hsq.
  destruct (sum_sqr_zero _ _ Hsq) as [Hdx Hdy].
  unfold closingSpeed, contactNormal, Vector2_scale, Vector2_minus in Hcs.
  real_arith. fields. rewrite Hdx, Hdy in Hcs. lra.
Qed.

Lemma overlapping_true (s1 s2 : Sphere R) :
  centerDistance s1 s2 < 2 * IZR SPHERE_RADIUS -> overlapping s1 s2 = true.
Proof.
  intros Hd. unfold overlapping. set (d := centerDistance s1 s2) in *.
  real_arith. apply Rltb_true. lra.
Qed.

Lemma closing_true (s1 s2 : Sphere R) :
  closingSpeed s1 s2 < 0 -> (closingSpeed s1 s2 <? of_int 0)%dbl = true.
Proof.
  intros Hcs. set (cs := closingSpeed s1 s2) in *. real_arith.
  apply Rltb_true. exact Hcs.
Qed.


Lemma closingSpeed_at_distance (a b : Sphere R) (d : R) :
  centerDistance a b = d ->
  closingSpeed a b
  = (x (position b) - x (position a)) * (1 / d) * (x (velocity b) - x (velocity a))
    + (y (position b) - y (position a)) * (1 / d) * (y (velocity b) - y (velocity a)).
Proof. intros <-. reflexivity. Qed.

Lemma contactNormal_at_distance (a b : Sphere R) (d : R) :
  centerDistance a b = d ->
  contactNormal a b
  = mkVector2 ((x (position b) - x (position a)) * (1 / d))
              ((y (position b) - y (position a)) * (1 / d)).
Proof. intros <-. reflexivity. Qed.

(** Each sphere is moved by half the penetration along the normal, so the
    new offset between the centres is the normal scaled to [2 * radius]. *)
Lemma pushed_apart_component (p1 p2 d : R) :
  0 < d ->
  p2 + (40 - d) * (5 / 10) * ((p2 - p1) * (1 / d))
  - (p1 - (40 - d) * (5 / 10) * ((p2 - p1) * (1 / d)))
  = 40 * ((p2 - p1) * (1 / d)).
Proof. intros Hd. field. lra. Qed.

Lemma unit_normal (dx dy d : R) :
  0 < d -> d * d = dx * dx + dy * dy ->
  dx * (1 / d) * (dx * (1 / d)) + dy * (1 / d) * (dy * (1 / d)) = 1.
Proof.
  intros Hd Hsq.
  replace (dx * (1 / d) * (dx * (1 / d)) + dy * (1 / d) * (dy * (1 / d)))
    with ((dx * dx + dy * dy) * (1 / d) * (1 / d)) by ring.
  rewrite <- Hsq. field. lra.
Qed.

(** The velocity update reflects the normal component of the relative
    velocity: with [k1 = 1/bounceFactor1] and [k2 = 1/bounceFactor2], the
    two impulses add up to twice the closing speed along a unit normal. *)
Lemma response_algebra (nx ny v1x v1y v2x v2y k1 k2 : R) :
  nx * nx + ny * ny = 1 ->
  k1 + k2 <> 0 ->
  nx * (v2x - 2 * (nx * (v2x - v1x) + ny * (v2y - v1y)) / (k1 + k2) * (nx * k2)
        - (v1x + 2 * (nx * (v2x - v1x) + ny * (v2y - v1y)) / (k1 + k2) * (nx * k1)))
  + ny * (v2y - 2 * (nx * (v2x - v1x) + ny * (v2y - v1y)) / (k1 + k2) * (ny * k2)
          - (v1y + 2 * (nx * (v2x - v1x) + ny * (v2y - v1y)) / (k1 + k2) * (ny * k1)))
  = - (nx * (v2x - v1x) + ny * (v2y - v1y)).
Proof.
  intros Hunit Hk.
  set (cs := nx * (v2x - v1x) + ny * (v2y - v1y)).
  transitivity (cs - 2 * cs * (nx * nx + ny * ny)).
  - unfold cs. field. exact Hk.
  - rewrite Hunit. ring.
Qed.

(** What the collision response achieves, in exact arithmetic: the centres
    end exactly [2 * radius] apart, the contact normal is the one the
    response was computed with, and the closing speed changes sign. *)
Lemma collision_response (s1 s2 : Sphere R) :
  centerDistance s1 s2 < 2 * IZR SPHERE_RADIUS ->
  closingSpeed s1 s2 < 0 ->
  1 / bounceFactor s1 + 1 / bounceFactor s2 <> 0 ->
  centerDistance (fst (handleSphereCollision s1 s2)) (snd (handleSphereCollision s1 s2))
  = 2 * IZR SPHERE_RADIUS /\
  contactNormal (fst (handleSphereCollision s1 s2)) (snd (handleSphereCollision s1 s2))
  = contactNormal s1 s2 /\
  closingSpeed (fst (handleSphereCollision s1 s2)) (snd (handleSphereCollision s1 s2))
  = - closingSpeed s1 s2.
Proof.
  intros Hov Hcs Hbf.
  pose proof (closing_centres_apart s1 s2 Hcs) as Hd.
  pose proof (centerDistance_sqr s1 s2) as Hsq.
  pose proof (unit_normal _ _ _ Hd Hsq) as Hunit.
  rewrite handleSphereCollision_cases, (overlapping_true _ _ Hov), (closing_true _ _ Hcs).
  cbv zeta. cbn [fst snd].
  match goal with |- centerDistance ?a ?b = _ /\ _ =>
    assert (Hnew : centerDistance a b = 2 * IZR SPHERE_RADIUS) end.
  { apply centerDistance_eq; [real_arith; lra|].
    unfold contactNormal, Vector2_scale, Vector2_minus. fields. real_arith.
    rewrite !pushed_apart_component by exact Hd.
    transitivity
      (1600 * ((x (position s2) - x (position s1)) * (1 / centerDistance s1 s2)
               * ((x (position s2) - x (position s1)) * (1 / centerDistance s1 s2))
               + (y (position s2) - y (position s1)) * (1 / centerDistance s1 s2)
                 * ((y (position s2) - y (position s1)) * (1 / centerDistance s1 s2))));
      [rewrite Hunit; lra | ring]. }
  split; [exact Hnew|]. split.
  - rewrite (contactNormal_at_distance _ _ _ Hnew).
    unfold contactNormal, Vector2_scale, Vector2_minus. fields. real_arith.
    rewrite !pushed_apart_component by exact Hd.
    f_equal; field; lra.
  - rewrite (closingSpeed_at_distance _ _ _ Hnew).
    unfold closingSpeed, contactNormal, Vector2_scale, Vector2_minus. fields. real_arith.
    rewrite !pushed_apart_component by exact Hd.
    rewrite <- (response_algebra _ _ (x (velocity s1)) (y (velocity s1))
                  (x (velocity s2)) (y (velocity s2)) _ _ Hunit Hbf).
    clear Hnew.
    set (k1 := 1 / bounceFactor s1) in *. set (k2 := 1 / bounceFactor s2) in *.
    clearbody k1 k2.
    field. split; [lra | exact Hbf].
Qed.

(** C3, as amended. In exact arithmetic, two overlapping spheres (bounce
    factors positive, as for every sphere of the program) with negative
    closing speed leave one call of [handleSphereCollision] with their
    centres at least [2 * radius] apart, in fact exactly [2 * radius], and
    with a closing speed along the contact normal that is not negative, in
    fact the closing speed before the call negated.  Nothing is said here of
    the doubles the program computes on, where the statement fails. *)
Theorem collision_separates (s1 s2 : Sphere R) :
  0 < bounceFactor s1 ->
  0 < bounceFactor s2 ->
  centerDistance s1 s2 < 2 * IZR SPHERE_RADIUS ->
  closingSpeed s1 s2 < 0 ->
  centerDistance (fst (handleSphereCollision s1 s2)) (snd (handleSphereCollision s1 s2))
  >= 2 * IZR SPHERE_RADIUS /\
  closingSpeed (fst (handleSphereCollision s1 s2)) (snd (handleSphereCollision s1 s2))
  >= 0 /\
  centerDistance (fst (handleSphereCollision s1 s2)) (snd (handleSphereCollision s1 s2))
  = 2 * IZR SPHERE_RADIUS /\
  closingSpeed (fst (handleSphereCollision s1 s2)) (snd (handleSphereCollision s1 s2))
  = - closingSpeed s1 s2.
Proof.
  intros Hb1 Hb2 Hov Hcs.
  assert (Hbf : 1 / bounceFactor s1 + 1 / bounceFactor s2 <> 0).
  { assert (0 < 1 / bounceFactor s1) by (apply Rdiv_lt_0_compat; lra).
    assert (0 < 1 / bounceFactor s2) by (apply Rdiv_lt_0_compat; lra).
    lra. }
  destruct (collision_response s1 s2 Hov Hcs Hbf) as (Hdist & _ & Hspeed).
  rewrite Hdist, Hspeed. repeat split; lra.
Qed.

(** ** Concrete runs

    Vertically aligned spheres keep the square root rational, so whole ticks
    can be evaluated in exact arithmetic. *)

(** Evaluates [handleSphereCollision] on two explicit spheres whose centres
    are [d] apart, when the response fires. *)
Ltac collide_closing d :=
  rewrite handleSphereCollision_cases;
  unfold overlapping, closingSpeed, contactNormal;
  rewrite (centerDistance_eq _ _ d) by (unfold ball; fields; lra);
  unfold ball, Vector2_scale, Vector2_minus; fields; real_arith;
  rewrite Rltb_true by lra; rewrite Rltb_true by lra;
  cbv zeta; f_equal; apply sphere_eq; lra.

(** The same when the centres are [d >= 40] apart. *)
Ltac collide_apart d :=
  apply handleSphereCollision_apart;
  unfold overlapping;
  rewrite (centerDistance_eq _ _ d) by (unfold ball; fields; lra);
  real_arith; apply Rltb_false; lra.

Ltac move_free :=
  unfold ball; rewrite moveSphere_free;
  [ fields; real_arith; apply sphere_eq; lra
  | unfold clearOfEdges, integrate, Vector2_plus; fields; real_arith; lra ].


Lemma newSphere_ball (ex ey c : Z) :
  newSphere ex ey c = ball (IZR ex) (IZR ey) 0 0 c.
Proof. reflexivity. Qed.

(** First scenario: a sphere spawned at [(100, 100)] and one spawned
    40 pixels below it, both at rest. *)
Lemma upper_moves : moveSphere (ball 100 100 0 0 1) = ball 100 100.2 0 0.2 1.
Proof. move_free. Qed.

Lemma upper_hits_lower :
  handleSphereCollision (ball 100 100.2 0 0.2 1) (ball 100 140 0 0 2)
  = (ball 100 100.1 0 0 1, ball 100 140.1 0 0.2 2).
Proof. collide_closing 39.8. Qed.

Lemma lower_moves : moveSphere (ball 100 140.1 0 0.2 2) = ball 100 140.5 0 0.4 2.
Proof. move_free. Qed.

Lemma lower_misses_upper :
  handleSphereCollision (ball 100 140.5 0 0.4 2) (ball 100 100.1 0 0 1)
  = (ball 100 140.5 0 0.4 2, ball 100 100.1 0 0 1).
Proof. collide_apart 40.4. Qed.

Lemma lower_moves_staged : moveSphere (ball 100 140 0 0 2) = ball 100 140.2 0 0.2 2.
Proof. move_free. Qed.

Lemma staged_pair_apart :
  handleSphereCollision (ball 100 100.2 0 0.2 1) (ball 100 140.2 0 0.2 2)
  = (ball 100 100.2 0 0.2 1, ball 100 140.2 0 0.2 2).
Proof. collide_apart 40. Qed.

(** For two spheres spawned at rest at [(100, 100)] and
    [(100, 140)], the loop of the source lets the first sphere move and hit
    the second before the second has moved, while the staged tick moves both
    and then finds them exactly [2 * radius] apart; the final states differ. *)
Lemma stagedTick_differs_exact :
  let world : list (Sphere R) := spawn 100 140 2 (spawn 100 100 1 []) in
  updateAll world = [ball 100 100.1 0 0 1; ball 100 140.5 0 0.4 2] /\
  stagedTick world = [ball 100 100.2 0 0.2 1; ball 100 140.2 0 0.2 2] /\
  updateAll world <> stagedTick world.
Proof.
  cbv zeta. unfold spawn. cbn [app]. rewrite !newSphere_ball.
  assert (Hloop : updateAll [ball 100 100 0 0 1; ball 100 140 0 0 2]
                  = [ball 100 100.1 0 0 1; ball 100 140.5 0 0.4 2]).
  { rewrite updateAll_pair, upper_moves, upper_hits_lower, lower_moves,
      lower_misses_upper. reflexivity. }
  assert (Hstaged : stagedTick [ball 100 100 0 0 1; ball 100 140 0 0 2]
                    = [ball 100 100.2 0 0.2 1; ball 100 140.2 0 0.2 2]).
  { rewrite stagedTick_pair, upper_moves, lower_moves_staged, staged_pair_apart.
    reflexivity. }
  rewrite Hloop, Hstaged. repeat split.
  intros Heq. apply (f_equal (fun l => match l with s :: _ => y (position s) | [] => 0 end)) in Heq.
  unfold ball in Heq. fields. lra.
Qed.






Lemma collision_separates_witness :
  let s1 : Sphere R := ball 100 100.2 0 0.2 1 in
  let s2 : Sphere R := ball 100 140 0 0 2 in
  centerDistance (fst (handleSphereCollision s1 s2)) (snd (handleSphereCollision s1 s2))
  >= 2 * IZR SPHERE_RADIUS /\
  closingSpeed (fst (handleSphereCollision s1 s2)) (snd (handleSphereCollision s1 s2))
  >= 0 /\
  centerDistance (fst (handleSphereCollision s1 s2)) (snd (handleSphereCollision s1 s2))
  = 2 * IZR SPHERE_RADIUS /\
  closingSpeed (fst (handleSphereCollision s1 s2)) (snd (handleSphereCollision s1 s2))
  = - closingSpeed s1 s2.
Proof.
  cbv zeta.
  assert (Hd : centerDistance (ball 100 100.2 0 0.2 1) (ball 100 140 0 0 2) = 39.8)
    by (apply centerDistance_eq; unfold ball; fields; lra).
  apply (collision_separates (ball 100 100.2 0 0.2 1) (ball 100 140 0 0 2)).
  - unfold ball. fields. real_arith. lra.
  - unfold ball. fields. real_arith. lra.
  - rewrite Hd. real_arith. lra.
  - rewrite (closingSpeed_at_distance _ _ _ Hd). unfold ball. fields. lra.
Defined.

(** ** More on [handleSphereCollision] *)

Lemma handleSphereCollision_fired (s1 s2 : Sphere R) :
  centerDistance s1 s2 < 2 * IZR SPHERE_RADIUS ->
  closingSpeed s1 s2 < 0 ->
  handleSphereCollision s1 s2 =
  (mkSphere
     (mkVector2
        (x (position s1)
         - (40 - centerDistance s1 s2) * (5 / 10) * x (contactNormal s1 s2))
        (y (position s1)
         - (40 - centerDistance s1 s2) * (5 / 10) * y (contactNormal s1 s2)))
     (mkVector2
        (x (velocity s1)
         + 2 * closingSpeed s1 s2 / (1 / bounceFactor s1 + 1 / bounceFactor s2)
           * (x (contactNormal s1 s2) * (1 / bounceFactor s1)))
        (y (velocity s1)
         + 2 * closingSpeed s1 s2 / (1 / bounceFactor s1 + 1 / bounceFactor s2)
           * (y (contactNormal s1 s2) * (1 / bounceFactor s1))))
     (color s1) (bounceFactor s1),
   mkSphere
     (mkVector2
        (x (position s2)
         + (40 - centerDistance s1 s2) * (5 / 10) * x (contactNormal s1 s2))
        (y (position s2)
         + (40 - centerDistance s1 s2) * (5 / 10) * y (contactNormal s1 s2)))
     (mkVector2
        (x (velocity s2)
         - 2 * closingSpeed s1 s2 / (1 / bounceFactor s1 + 1 / bounceFactor s2)
           * (x (contactNormal s1 s2) * (1 / bounceFactor s2)))
        (y (velocity s2)
         - 2 * closingSpeed s1 s2 / (1 / bounceFactor s1 + 1 / bounceFactor s2)
           * (y (contactNormal s1 s2) * (1 / bounceFactor s2))))
     (color s2) (bounceFactor s2)).
Proof.
  intros Hov Hcs.
  rewrite handleSphereCollision_cases, (overlapping_true _ _ Hov), (closing_true _ _ Hcs).
  reflexivity.
Qed.

Lemma handleSphereCollision_idle (s1 s2 : Sphere R) :
  2 * IZR SPHERE_RADIUS <= centerDistance s1 s2 \/ 0 <= closingSpeed s1 s2 ->
  handleSphereCollision s1 s2 = (s1, s2).
Proof.
  intros [Hfar|Hopen].
  - apply handleSphereCollision_apart. unfold overlapping.
    set (d := centerDistance s1 s2) in *. real_arith. apply Rltb_false. lra.
  - apply handleSphereCollision_not_closing.
    set (cs := closingSpeed s1 s2) in *. real_arith. apply Rltb_false. lra.
Qed.

(** X9.  Whatever [handleSphereCollision] does, it moves the two centres by
    opposite vectors: the midpoint of the pair stays where it was. *)
Theorem collision_keeps_midpoint (s1 s2 : Sphere R) :
  x (position (fst (handleSphereCollision s1 s2)))
  + x (position (snd (handleSphereCollision s1 s2)))
  = x (position s1) + x (position s2) /\
  y (position (fst (handleSphereCollision s1 s2)))
  + y (position (snd (handleSphereCollision s1 s2)))
  = y (position s1) + y (position s2).
Proof.
  destruct (Rlt_le_dec (centerDistance s1 s2) (2 * IZR SPHERE_RADIUS)) as [Hov|Hfar];
    [destruct (Rlt_le_dec (closingSpeed s1 s2) 0) as [Hcs|Hopen]|].
  - rewrite (handleSphereCollision_fired s1 s2 Hov Hcs). cbn [fst snd]. fields.
    split; ring.
  - rewrite handleSphereCollision_idle by (right; exact Hopen). split; reflexivity.
  - rewrite handleSphereCollision_idle by (left; exact Hfar). split; reflexivity.
Qed.

(** With equal bounce factors the impulse does not depend on them: the
    closing speed is moved from one sphere to the other along the normal. *)
Lemma equal_bounce_velocities (s1 s2 : Sphere R) :
  bounceFactor s1 = bounceFactor s2 ->
  bounceFactor s1 <> 0 ->
  centerDistance s1 s2 < 2 * IZR SPHERE_RADIUS ->
  closingSpeed s1 s2 < 0 ->
  velocity (fst (handleSphereCollision s1 s2))
  = mkVector2 (x (velocity s1) + closingSpeed s1 s2 * x (contactNormal s1 s2))
              (y (velocity s1) + closingSpeed s1 s2 * y (contactNormal s1 s2)) /\
  velocity (snd (handleSphereCollision s1 s2))
  = mkVector2 (x (velocity s2) - closingSpeed s1 s2 * x (contactNormal s1 s2))
              (y (velocity s2) - closingSpeed s1 s2 * y (contactNormal s1 s2)).
Proof.
  intros Hb Hb0 Hov Hcs.
  rewrite (handleSphereCollision_fired s1 s2 Hov Hcs). cbn [fst snd]. fields.
  rewrite <- Hb.
  set (cs := closingSpeed s1 s2). set (n := contactNormal s1 s2).
  set (b := bounceFactor s1) in *.
  split; f_equal; field; exact Hb0.
Qed.

Lemma contactNormal_unit (s1 s2 : Sphere R) :
  0 < centerDistance s1 s2 ->
  x (contactNormal s1 s2) * x (contactNormal s1 s2)
  + y (contactNormal s1 s2) * y (contactNormal s1 s2) = 1.
Proof.
  intros Hd. unfold contactNormal, Vector2_scale, Vector2_minus. fields. real_arith.
  apply unit_normal; [exact Hd | apply centerDistance_sqr].
Qed.

Lemma closingSpeed_normal (s1 s2 : Sphere R) :
  closingSpeed s1 s2
  = x (contactNormal s1 s2) * (x (velocity s2) - x (velocity s1))
    + y (contactNormal s1 s2) * (y (velocity s2) - y (velocity s1)).
Proof. reflexivity. Qed.

(** X10.  Between spheres of equal bounce factor, as all spheres of the
    program are, the bounce factor cancels out of the impulse and the
    collision is perfectly elastic: the sum of the two velocities and the sum
    of the two squared speeds are unchanged. *)
Theorem equal_bounce_factors_elastic (s1 s2 : Sphere R) :
  bounceFactor s1 = bounceFactor s2 ->
  bounceFactor s1 <> 0 ->
  let va := velocity (fst (handleSphereCollision s1 s2)) in
  let vb := velocity (snd (handleSphereCollision s1 s2)) in
  x va + x vb = x (velocity s1) + x (velocity s2) /\
  y va + y vb = y (velocity s1) + y (velocity s2) /\
  x va * x va + y va * y va + (x vb * x vb + y vb * y vb)
  = x (velocity s1) * x (velocity s1) + y (velocity s1) * y (velocity s1)
    + (x (velocity s2) * x (velocity s2) + y (velocity s2) * y (velocity s2)).
Proof.
  intros Hb Hb0. cbv zeta.
  destruct (Rlt_le_dec (centerDistance s1 s2) (2 * IZR SPHERE_RADIUS)) as [Hov|Hfar];
    [destruct (Rlt_le_dec (closingSpeed s1 s2) 0) as [Hcs|Hopen]|].
  - destruct (equal_bounce_velocities s1 s2 Hb Hb0 Hov Hcs) as [-> ->]. fields.
    pose proof (contactNormal_unit s1 s2 (closing_centres_apart s1 s2 Hcs)) as Hunit.
    pose proof (closingSpeed_normal s1 s2) as Hdef.
    set (cs := closingSpeed s1 s2) in *.
    set (nx := x (contactNormal s1 s2)) in *. set (ny := y (contactNormal s1 s2)) in *.
    clearbody cs nx ny.
    split; [ring|]. split; [ring|].
    transitivity
      (x (velocity s1) * x (velocity s1) + y (velocity s1) * y (velocity s1)
       + (x (velocity s2) * x (velocity s2) + y (velocity s2) * y (velocity s2))
       + 2 * cs * (cs * (nx * nx + ny * ny)
                   - (nx * (x (velocity s2) - x (velocity s1))
                      + ny * (y (velocity s2) - y (velocity s1))))); [ring|].
    rewrite Hunit, <- Hdef. ring.
  - rewrite handleSphereCollision_idle by (right; exact Hopen). repeat split.
  - rewrite handleSphereCollision_idle by (left; exact Hfar). repeat split.
Qed.

Lemma centerDistance_sym (s1 s2 : Sphere R) :
  centerDistance s2 s1 = centerDistance s1 s2.
Proof.
  apply centerDistance_eq; [apply centerDistance_nonneg|].
  rewrite centerDistance_sqr. ring.
Qed.

Lemma contactNormal_sym (s1 s2 : Sphere R) :
  x (contactNormal s2 s1) = - x (contactNormal s1 s2) /\
  y (contactNormal s2 s1) = - y (contactNormal s1 s2).
Proof.
  unfold contactNormal. rewrite (centerDistance_sym s1 s2).
  unfold Vector2_scale, Vector2_minus. fields. real_arith. split; ring.
Qed.

Lemma closingSpeed_sym (s1 s2 : Sphere R) :
  closingSpeed s2 s1 = closingSpeed s1 s2.
Proof.
  rewrite !closingSpeed_normal. destruct (contactNormal_sym s1 s2) as [-> ->]. ring.
Qed.

(** X11.  The order of the two arguments does not matter: called on
    [(s2, s1)] the function does to each sphere what it does when called on
    [(s1, s2)]. *)
Theorem collision_symmetric (s1 s2 : Sphere R) :
  handleSphereCollision s2 s1
  = (snd (handleSphereCollision s1 s2), fst (handleSphereCollision s1 s2)).
Proof.
  destruct (Rlt_le_dec (centerDistance s1 s2) (2 * IZR SPHERE_RADIUS)) as [Hov|Hfar];
    [destruct (Rlt_le_dec (closingSpeed s1 s2) 0) as [Hcs|Hopen]|].
  - rewrite (handleSphereCollision_fired s1 s2 Hov Hcs).
    rewrite (handleSphereCollision_fired s2 s1)
      by (rewrite ?(centerDistance_sym s1 s2), ?(closingSpeed_sym s1 s2); assumption).
    cbn [fst snd].
    rewrite (centerDistance_sym s1 s2), (closingSpeed_sym s1 s2).
    destruct (contactNormal_sym s1 s2) as [-> ->].
    replace (1 / bounceFactor s2 + 1 / bounceFactor s1)
      with (1 / bounceFactor s1 + 1 / bounceFactor s2) by ring.
    f_equal; apply sphere_eq; try reflexivity; ring.
  - rewrite (handleSphereCollision_idle s1 s2) by (right; exact Hopen). cbn [fst snd].
    apply handleSphereCollision_idle. right. rewrite (closingSpeed_sym s1 s2). exact Hopen.
  - rewrite (handleSphereCollision_idle s1 s2) by (left; exact Hfar). cbn [fst snd].
    apply handleSphereCollision_idle. left. rewrite (centerDistance_sym s1 s2). exact Hfar.
Qed.

(** X12.  Spheres whose centres are [2 * radius] or more apart along one
    axis are returned unchanged; this includes spheres that just touch. *)
Theorem far_apart_untouched (s1 s2 : Sphere R) :
  2 * IZR SPHERE_RADIUS <= Rabs (x (position s2) - x (position s1)) \/
  2 * IZR SPHERE_RADIUS <= Rabs (y (position s2) - y (position s1)) ->
  handleSphereCollision s1 s2 = (s1, s2).
Proof.
  intros Hfar. apply handleSphereCollision_idle. left.
  pose proof (centerDistance_nonneg s1 s2) as Hd.
  pose proof (centerDistance_sqr s1 s2) as Hsq.
  set (d := centerDistance s1 s2) in *.
  set (dx := x (position s2) - x (position s1)) in *.
  set (dy := y (position s2) - y (position s1)) in *.
  real_arith.
  assert (Hdx : Rabs dx * Rabs dx = dx * dx)
    by (unfold Rabs; destruct (Rcase_abs dx); ring).
  assert (Hdy : Rabs dy * Rabs dy = dy * dy)
    by (unfold Rabs; destruct (Rcase_abs dy); ring).
  pose proof (Rabs_pos dx). pose proof (Rabs_pos dy).
  pose proof (sum_sqr_nonneg dx 0). pose proof (sum_sqr_nonneg dy 0).
  destruct (Rlt_le_dec d 40) as [Hlt|Hge]; [exfalso|exact Hge].
  assert (d * d < 40 * 40) by nra.
  destruct Hfar as [Hx|Hy]; nra.
Qed.

(** X13.  With positive bounce factors a second call right after the first
    changes nothing, in either order of the arguments: the first call leaves
    the pair separating, so the next call finds nothing to do. *)
Theorem collision_idempotent (s1 s2 : Sphere R) :
  0 < bounceFactor s1 ->
  0 < bounceFactor s2 ->
  let r := handleSphereCollision s1 s2 in
  handleSphereCollision (fst r) (snd r) = r /\
  handleSphereCollision (snd r) (fst r) = (snd r, fst r).
Proof.
  intros Hb1 Hb2. cbv zeta.
  destruct (Rlt_le_dec (centerDistance s1 s2) (2 * IZR SPHERE_RADIUS)) as [Hov|Hfar];
    [destruct (Rlt_le_dec (closingSpeed s1 s2) 0) as [Hcs|Hopen]|].
  - assert (Hbf : 1 / bounceFactor s1 + 1 / bounceFactor s2 <> 0).
    { assert (0 < 1 / bounceFactor s1) by (apply Rdiv_lt_0_compat; lra).
      assert (0 < 1 / bounceFactor s2) by (apply Rdiv_lt_0_compat; lra).
      lra. }
    destruct (collision_response s1 s2 Hov Hcs Hbf) as (_ & _ & Hspeed).
    split.
    + rewrite handleSphereCollision_idle by (right; rewrite Hspeed; lra).
      symmetry. apply surjective_pairing.
    + apply handleSphereCollision_idle. right.
      rewrite (closingSpeed_sym (fst (handleSphereCollision s1 s2))), Hspeed. lra.
  - rewrite (handleSphereCollision_idle s1 s2) by (right; exact Hopen). cbn [fst snd].
    split; apply handleSphereCollision_idle; right;
      [|rewrite (closingSpeed_sym s1 s2)]; exact Hopen.
  - rewrite (handleSphereCollision_idle s1 s2) by (left; exact Hfar). cbn [fst snd].
    split; apply handleSphereCollision_idle; left;
      [|rewrite (centerDistance_sym s1 s2)]; exact Hfar.
Qed.

(** ** Spheres that do not touch *)

(** The call with the arguments swapped, as a pair. *)
Lemma swapped_call (s1 s2 : Sphere R) :
  handleSphereCollision s2 s1
  = let '(a, b) := handleSphereCollision s1 s2 in (b, a).
Proof.
  destruct (Rlt_le_dec (centerDistance s1 s2) (2 * IZR SPHERE_RADIUS)) as [Hov|Hfar];
    [destruct (Rlt_le_dec (closingSpeed s1 s2) 0) as [Hcs|Hopen]|].
  - rewrite (handleSphereCollision_fired s1 s2 Hov Hcs).
    rewrite (handleSphereCollision_fired s2 s1)
      by (rewrite ?(centerDistance_sym s1 s2), ?(closingSpeed_sym s1 s2); assumption).
    rewrite (centerDistance_sym s1 s2), (closingSpeed_sym s1 s2).
    destruct (contactNormal_sym s1 s2) as [-> ->].
    replace (1 / bounceFactor s2 + 1 / bounceFactor s1)
      with (1 / bounceFactor s1 + 1 / bounceFactor s2) by ring.
    f_equal; apply sphere_eq; try reflexivity; ring.
  - rewrite (handleSphereCollision_idle s1 s2) by (right; exact Hopen).
    apply handleSphereCollision_idle. right. rewrite (closingSpeed_sym s1 s2). exact Hopen.
  - rewrite (handleSphereCollision_idle s1 s2) by (left; exact Hfar).
    apply handleSphereCollision_idle. left. rewrite (centerDistance_sym s1 s2). exact Hfar.
Qed.

(** Two spheres: when the first call of the loop, the moved first sphere
    against the second one not yet moved, changes nothing, the loop is left
    with the call on the two moved spheres, which is the call of the staged
    tick with the arguments swapped. *)
Lemma pair_agrees_exact (a b : Sphere R) :
  idle (moveSphere a) b -> updateAll [a; b] = stagedTick [a; b].
Proof.
  intros Hidle. rewrite updateAll_pair, stagedTick_pair, Hidle.
  rewrite (swapped_call (moveSphere a) (moveSphere b)).
  destruct (handleSphereCollision (moveSphere a) (moveSphere b)) as [a' b'].
  reflexivity.
Qed.

(** Spheres [2 * radius] or more apart along [x] do not touch. *)
Lemma apart_along_x (s1 s2 : Sphere R) :
  2 * IZR SPHERE_RADIUS <= Rabs (x (position s2) - x (position s1)) ->
  idle s1 s2.
Proof.
  intros Hfar. apply handleSphereCollision_idle. left.
  pose proof (centerDistance_nonneg s1 s2) as Hd.
  pose proof (centerDistance_sqr s1 s2) as Hsq.
  set (d := centerDistance s1 s2) in *.
  set (dx := x (position s2) - x (position s1)) in *.
  set (dy := y (position s2) - y (position s1)) in *.
  real_arith.
  assert (Hdx : Rabs dx * Rabs dx = dx * dx)
    by (unfold Rabs; destruct (Rcase_abs dx); ring).
  pose proof (Rabs_pos dx). pose proof (sum_sqr_nonneg dy 0).
  destruct (Rlt_le_dec d 40) as [Hlt|Hge]; [exfalso|exact Hge].
  assert (d * d < 40 * 40) by nra.
  nra.
Qed.

(** A sphere without horizontal velocity and clear of the side walls stays
    in its column. *)
Lemma moveSphere_column (s : Sphere R) :
  x (velocity s) = 0 ->
  IZR SPHERE_RADIUS < x (position s) < IZR SCREEN_WIDTH - IZR SPHERE_RADIUS ->
  x (position (moveSphere s)) = x (position s) /\ x (velocity (moveSphere s)) = 0.
Proof.
  unfold moveSphere, resolveBoundaries, bounceSides, bounceBottom, integrate,
    Vector2_plus.
  real_arith. fields. intros Hv Hx.
  destruct (Rleb 480 _); fields;
    rewrite (Rleb_false _ 0), (Rleb_false 640) by lra; fields; lra.
Qed.

Lemma inColumns_moved (l : list (Sphere R)) :
  inColumns l -> inColumns (map moveSphere l).
Proof.
  intros [Hall Hapart]. split.
  - apply Forall_forall. intros s' Hin.
    change (map moveSphere l) with (moveSphere <$> l) in Hin.
    apply list_elem_of_fmap in Hin. destruct Hin as (s & -> & Hin).
    rewrite Forall_forall in Hall. destruct (Hall s Hin) as [Hv Hx].
    destruct (moveSphere_column s Hv Hx) as [-> ->]. split; [reflexivity | exact Hx].
  - intros i j a' b' Hij Ha Hb.
    change (map moveSphere l) with (moveSphere <$> l) in Ha, Hb.
    rewrite list_lookup_fmap in Ha, Hb.
    destruct (l !! i) as [a|] eqn:Hi; [|discriminate Ha].
    destruct (l !! j) as [b|] eqn:Hj; [|discriminate Hb].
    cbn in Ha, Hb. injection Ha as <-. injection Hb as <-.
    destruct (Forall_lookup_1 _ _ _ _ Hall Hi) as [Hva Hxa].
    destruct (Forall_lookup_1 _ _ _ _ Hall Hj) as [Hvb Hxb].
    destruct (moveSphere_column a Hva Hxa) as [-> _].
    destruct (moveSphere_column b Hvb Hxb) as [-> _].
    exact (Hapart i j a b Hij Hi Hj).
Qed.

(** Spheres falling in separate columns never touch. *)
Lemma inColumns_quiet (l : list (Sphere R)) : inColumns l -> quietTick l.
Proof.
  intros [Hall Hapart] i j a b Hij Hi Hj.
  destruct (Forall_lookup_1 _ _ _ _ Hall Hi) as [Hva Hxa].
  destruct (Forall_lookup_1 _ _ _ _ Hall Hj) as [Hvb Hxb].
  pose proof (Hapart i j a b Hij Hi Hj) as Hfar.
  destruct (moveSphere_column a Hva Hxa) as [Ha _].
  destruct (moveSphere_column b Hvb Hxb) as [Hb _].
  split; [|intros _]; apply apart_along_x; rewrite ?Ha, ?Hb; exact Hfar.
Qed.

Lemma inColumns_ticks (l : list (Sphere R)) (t : nat) :
  inColumns l -> inColumns (ticks t l).
Proof.
  intros Hcol. induction t as [|t IH]; [exact Hcol|].
  unfold ticks in *. rewrite Nat.iter_succ.
  rewrite (quiet_updateAll _ (inColumns_quiet _ IH)). apply inColumns_moved, IH.
Qed.

(** A sphere falling at [v = 1] onto one at rest below it: when the lower
    one, first in the vector, has moved, the upper one is still [40.7]
    above it, and the call changes nothing; once the upper one has moved as
    well the two overlap, [39.5] apart and closing, and the response
    fires. *)
Lemma late_response_pair :
  let a : Sphere R := ball 100 140 0 0 1 in
  let b : Sphere R := ball 100 99.5 0 1 2 in
  idle (moveSphere a) b /\
  centerDistance (moveSphere b) (moveSphere a) = 39.5 /\
  closingSpeed (moveSphere b) (moveSphere a) = -1.
Proof.
  cbv zeta.
  assert (Ha : moveSphere (ball 100 140 0 0 1) = ball 100 140.2 0 0.2 1).
  { rewrite moveSphere_free.
    - unfold ball. fields. real_arith. apply sphere_eq; lra.
    - unfold clearOfEdges, integrate, Vector2_plus, ball. fields. real_arith. lra. }
  assert (Hb : moveSphere (ball 100 99.5 0 1 2) = ball 100 100.7 0 1.2 2).
  { rewrite moveSphere_free.
    - unfold ball. fields. real_arith. apply sphere_eq; lra.
    - unfold clearOfEdges, integrate, Vector2_plus, ball. fields. real_arith. lra. }
  rewrite Ha, Hb.
  assert (Hd : centerDistance (ball 100 100.7 0 1.2 2) (ball 100 140.2 0 0.2 1) = 39.5)
    by (apply centerDistance_eq; unfold ball; fields; lra).
  split; [|split].
  - apply handleSphereCollision_idle. left.
    assert (Hfar : centerDistance (ball 100 140.2 0 0.2 1) (ball 100 99.5 0 1 2) = 40.7)
      by (apply centerDistance_eq; unfold ball; fields; lra).
    rewrite Hfar. real_arith. lra.
  - exact Hd.
  - rewrite (closingSpeed_at_distance _ _ _ Hd). unfold ball. fields. lra.
Qed.

(** C5, as amended. In exact arithmetic, in a vector of any length, a
    sphere that starts at rest at [(x0, y0)], touches no other sphere during
    the first [n] ticks and whose fall stays clear of every edge up to tick
    [n] has after [n] ticks vertical velocity [n * GRAVITY] and height
    [y0 + GRAVITY * (1 + 2 + ... + n)], exactly; [x0] and the horizontal
    velocity [0] are as at the start.  Nothing is said here of the doubles
    the program computes on, where the closed forms fail. *)
Theorem gravity_only (spheres : list (Sphere R)) (i : nat)
    (x0 y0 bf : R) (c : Z) (n : nat) :
  spheres !! i = Some (mkSphere (mkVector2 x0 y0) (mkVector2 0 0) c bf) ->
  (forall t, (t < n)%nat -> untouched i (ticks t spheres)) ->
  0 < x0 - IZR SPHERE_RADIUS ->
  x0 + IZR SPHERE_RADIUS < IZR SCREEN_WIDTH ->
  y0 + GRAVITY * INR (triangular n) + IZR SPHERE_RADIUS < IZR SCREEN_HEIGHT ->
  ticks n spheres !! i
  = Some (mkSphere (mkVector2 x0 (y0 + GRAVITY * INR (triangular n)))
                   (mkVector2 0 (INR n * GRAVITY)) c bf).
Proof.
  intros Hi Hfree Hl Hr Hb.
  rewrite (ticks_untouched i n spheres _ Hfree Hi). f_equal.
  apply free_fall_iter. unfold clearOfEdges. fields. auto.
Qed.

(** Two spheres dropped from rest [200] pixels apart. *)
Lemma gravity_only_witness :
  let spheres : list (Sphere R) :=
    [mkSphere (mkVector2 100 50) (mkVector2 0 0) 7 BOUNCE_FACTOR;
     mkSphere (mkVector2 300 20) (mkVector2 0 0) 8 BOUNCE_FACTOR] in
  ticks 3 spheres !! 0%nat
  = Some (mkSphere (mkVector2 100 (50 + GRAVITY * INR (triangular 3)))
                   (mkVector2 0 (INR 3 * GRAVITY)) 7 BOUNCE_FACTOR).
Proof.
  cbv zeta.
  apply (gravity_only
           [mkSphere (mkVector2 100 50) (mkVector2 0 0) 7 BOUNCE_FACTOR;
            mkSphere (mkVector2 300 20) (mkVector2 0 0) 8 BOUNCE_FACTOR]
           0 100 50 BOUNCE_FACTOR 7 3).
  - reflexivity.
  - intros t _. apply quiet_untouched, inColumns_quiet, inColumns_ticks. split.
    + repeat constructor; fields; real_arith; lra.
    + intros i j a b Hij Ha Hb.
      destruct i as [|[|i]], j as [|[|j]]; try discriminate; try congruence;
        cbn in Ha, Hb; injection Ha as <-; injection Hb as <-; fields; real_arith;
        unfold Rabs; destruct (Rcase_abs _); lra.
  - real_arith. lra.
  - real_arith. lra.
  - simpl. real_arith. lra.
Defined.

(** ** A sphere lying on the floor *)

Lemma moveSphere_resting (s : Sphere R) :
  y (position s) = IZR SCREEN_HEIGHT - IZR SPHERE_RADIUS ->
  - GRAVITY < y (velocity s) <= 0 ->
  y (position (moveSphere s)) = IZR SCREEN_HEIGHT - IZR SPHERE_RADIUS /\
  - GRAVITY < y (velocity (moveSphere s)) < 0.
Proof.
  unfold moveSphere, resolveBoundaries, bounceSides, bounceBottom, integrate,
    Vector2_plus.
  real_arith. fields. intros Hy Hv.
  rewrite (Rleb_true 480) by lra. fields.
  repeat match goal with
         | |- context [Rleb ?a ?b] => destruct (Rleb a b)
         end; fields; lra.
Qed.

(** X16.  A lone sphere that lies on the floor line [y = height - radius]
    with a vertical velocity in [(-GRAVITY, 0]] (a sphere spawned by a click
    on that line, say) is put back on the line by every tick.  It never comes
    to rest, though: after every tick its vertical velocity is strictly
    negative, because gravity is added before the bounce reverses it. *)
Theorem resting_sphere_stays_on_floor (s : Sphere R) (n : nat) :
  y (position s) = IZR SCREEN_HEIGHT - IZR SPHERE_RADIUS ->
  - GRAVITY < y (velocity s) <= 0 ->
  exists s',
    ticks n [s] = [s'] /\
    y (position s') = IZR SCREEN_HEIGHT - IZR SPHERE_RADIUS /\
    - GRAVITY < y (velocity s') <= 0 /\
    ((0 < n)%nat -> y (velocity s') < 0).
Proof.
  intros Hy Hv. exists (Nat.iter n moveSphere s).
  split; [apply ticks_single|].
  induction n as [|n (IHy & IHv & _)].
  - cbn [Nat.iter nat_rect]. split; [exact Hy|]. split; [exact Hv|]. lia.
  - rewrite Nat.iter_succ.
    destruct (moveSphere_resting _ IHy IHv) as [Hy' Hv'].
    split; [exact Hy'|]. split; [lra|]. intros _. lra.
Qed.

Lemma resting_sphere_stays_on_floor_witness :
  exists s',
    ticks 3 [ball 100 460 0 0 1] = [s'] /\
    y (position s') = IZR SCREEN_HEIGHT - IZR SPHERE_RADIUS /\
    - GRAVITY < y (velocity s') <= 0 /\
    ((0 < 3)%nat -> y (velocity s') < 0).
Proof.
  apply (resting_sphere_stays_on_floor (ball 100 460 0 0 1) 3).
  - unfold ball. fields. real_arith. lra.
  - unfold ball. fields. real_arith. lra.
Defined.

(** ** The walls only take horizontal speed away *)

Lemma moveSphere_horizontal_speed (s : Sphere R) :
  Rabs (x (velocity (moveSphere s))) <= Rabs (x (velocity s)).
Proof.
  unfold moveSphere, resolveBoundaries, bounceSides, bounceBottom, integrate,
    Vector2_plus.
  real_arith. fields.
  repeat match goal with
         | |- context [Rleb ?a ?b] => destruct (Rleb a b); fields
         end;
    unfold Rabs; repeat destruct (Rcase_abs _); lra.
Qed.

(** X17.  A lone sphere never gains horizontal speed: gravity acts on the
    vertical component only, and a bounce off the left or right edge
    reverses the horizontal velocity and scales it by [BOUNCE_FACTOR]. *)
Theorem horizontal_speed_never_grows (s : Sphere R) (n : nat) :
  exists s',
    ticks n [s] = [s'] /\
    Rabs (x (velocity s')) <= Rabs (x (velocity s)).
Proof.
  exists (Nat.iter n moveSphere s). split; [apply ticks_single|].
  induction n as [|n IH]; [cbn [Nat.iter nat_rect]; lra|].
  rewrite Nat.iter_succ.
  eapply Rle_trans; [apply moveSphere_horizontal_speed | exact IH].
Qed.

(** ** Witnesses of the statements on [handleSphereCollision] *)

Lemma equal_bounce_factors_elastic_witness :
  let s1 : Sphere R := ball 100 100.2 0 0.2 1 in
  let s2 : Sphere R := ball 100 140 0 0 2 in
  let va := velocity (fst (handleSphereCollision s1 s2)) in
  let vb := velocity (snd (handleSphereCollision s1 s2)) in
  x va + x vb = x (velocity s1) + x (velocity s2) /\
  y va + y vb = y (velocity s1) + y (velocity s2) /\
  x va * x va + y va * y va + (x vb * x vb + y vb * y vb)
  = x (velocity s1) * x (velocity s1) + y (velocity s1) * y (velocity s1)
    + (x (velocity s2) * x (velocity s2) + y (velocity s2) * y (velocity s2)).
Proof.
  apply (equal_bounce_factors_elastic (ball 100 100.2 0 0.2 1) (ball 100 140 0 0 2)).
  - reflexivity.
  - unfold ball. fields. real_arith. lra.
Defined.

Lemma far_apart_untouched_witness :
  handleSphereCollision (ball 100 100 0 0 1) (ball 140 100 0 0 2)
  = (ball 100 100 0 0 1, ball 140 100 0 0 2).
Proof.
  apply (far_apart_untouched (ball 100 100 0 0 1) (ball 140 100 0 0 2)).
  left. unfold ball. fields. real_arith. rewrite Rabs_right by lra. lra.
Defined.

Lemma collision_idempotent_witness :
  let s1 : Sphere R := ball 100 100.2 0 0.2 1 in
  let s2 : Sphere R := ball 100 140 0 0 2 in
  let r := handleSphereCollision s1 s2 in
  handleSphereCollision (fst r) (snd r) = r /\
  handleSphereCollision (snd r) (fst r) = (snd r, fst r).
Proof.
  apply (collision_idempotent (ball 100 100.2 0 0.2 1) (ball 100 140 0 0 2));
    unfold ball; fields; real_arith; lra.
Defined.

End RealModel.

(** * Rounding on binary64

    Facts about the specification of binary64 addition and subtraction
    ([SpecFloat], [prec = 53], [emax = 1024]) that the edge tests rest on:
    a rounded sum of positive numbers is not below a double that the exact
    sum reaches, and a rounded difference has the sign of the exact one. *)

Section Binary64Rounding.

Local Open Scope Z_scope.

(** [digits2_pos p] is the bit length of [p]. *)
Lemma digits2_pos_bounds (p : positive) :
  2 ^ (Zpos (digits2_pos p) - 1) <= Zpos p < 2 ^ Zpos (digits2_pos p).
Proof.
  induction p as [p IH|p IH|]; cbn [digits2_pos].
  - rewrite Pos2Z.inj_succ.
    replace (Z.succ (Zpos (digits2_pos p)) - 1) with (Z.succ (Zpos (digits2_pos p) - 1)) by lia.
    rewrite !Z.pow_succ_r by lia. lia.
  - rewrite Pos2Z.inj_succ.
    replace (Z.succ (Zpos (digits2_pos p)) - 1) with (Z.succ (Zpos (digits2_pos p) - 1)) by lia.
    rewrite !Z.pow_succ_r by lia. lia.
  - cbn. lia.
Qed.

Lemma digits2_pos_lower (p : positive) (k : Z) :
  0 <= k -> 2 ^ k <= Zpos p -> k < Zpos (digits2_pos p).
Proof.
  intros Hk Hp. destruct (digits2_pos_bounds p) as [_ Hup].
  destruct (Z_lt_le_dec k (Zpos (digits2_pos p))) as [Hlt|Hge]; [exact Hlt|].
  pose proof (Z.pow_le_mono_r 2 _ _ ltac:(lia) Hge). lia.
Qed.

Lemma digits2_pos_upper (p : positive) (k : Z) :
  0 <= k -> Zpos p < 2 ^ k -> Zpos (digits2_pos p) <= k.
Proof.
  intros Hk Hp. destruct (digits2_pos_bounds p) as [Hlow _].
  destruct (Z_le_gt_dec (Zpos (digits2_pos p)) k) as [Hle|Hgt]; [exact Hle|].
  assert (k <= Zpos (digits2_pos p) - 1) by lia.
  pose proof (Z.pow_le_mono_r 2 _ _ ltac:(lia) H). lia.
Qed.

Lemma iter_xO (m d : positive) : Zpos (Pos.iter xO m d) = Zpos m * 2 ^ Zpos d.
Proof.
  revert m. induction d as [|d IH] using Pos.peano_ind; intros m.
  - cbn. lia.
  - rewrite Pos.iter_succ. rewrite Pos2Z.inj_xO, IH, Pos2Z.inj_succ, Z.pow_succ_r by lia. lia.
Qed.

Lemma shr_1_m (r : shr_record) :
  0 <= shr_m r -> shr_m (shr_1 r) = Z.div2 (shr_m r).
Proof.
  destruct r as [m b s]. cbn [shr_m]. intros Hm.
  destruct m as [|[p|p|]|p]; try reflexivity. lia.
Qed.

Lemma iter_pos_shr_1 (k : positive) (r : shr_record) :
  0 <= shr_m r -> shr_m (SpecFloat.iter_pos shr_1 k r) = shr_m r / 2 ^ Zpos k.
Proof.
  revert r. induction k as [k IH|k IH|]; intros r Hr; cbn [SpecFloat.iter_pos].
  - assert (H1 : 0 <= shr_m (shr_1 r)) by (rewrite shr_1_m by lia; apply Z.div2_nonneg; lia).
    assert (H2 : 0 <= shr_m (SpecFloat.iter_pos shr_1 k (shr_1 r))) by (rewrite IH by lia; apply Z.div_pos; lia).
    rewrite IH, IH, shr_1_m by lia.
    rewrite Z.div2_div, !Z.div_div by lia. f_equal.
    rewrite Pos2Z.inj_xI, Z.pow_add_r, Z.pow_mul_r by lia.
    change (2 ^ 2) with 4. change (2 ^ 1) with 2.
    replace (4 ^ Zpos k) with (2 ^ Zpos k * 2 ^ Zpos k); [lia|].
    rewrite <- Z.pow_add_r by lia. replace (Zpos k + Zpos k) with (2 * Zpos k) by lia.
    rewrite Z.pow_mul_r by lia. reflexivity.
  - assert (H2 : 0 <= shr_m (SpecFloat.iter_pos shr_1 k r)) by (rewrite IH by lia; apply Z.div_pos; lia).
    rewrite IH, IH by lia. rewrite Z.div_div by lia. f_equal.
    rewrite Pos2Z.inj_xO. rewrite <- Z.pow_add_r by lia. f_equal. lia.
  - rewrite shr_1_m by lia. rewrite Z.div2_div. reflexivity.
Qed.

Abbreviation fexp64 := (fexp 53 1024).

Lemma fexp64_eq (e : Z) : fexp64 e = Z.max (e - 53) (-1074).
Proof. reflexivity. Qed.

Lemma shr_fexp_normal (z : positive) (ez : Z) (l : location) :
  53 <= Zpos (digits2_pos z) ->
  -1074 <= Zpos (digits2_pos z) + ez - 53 ->
  shr_fexp 53 1024 (Zpos z) ez l
  = shr (shr_record_of_loc (Zpos z) l) ez (Zpos (digits2_pos z) - 53).
Proof.
  intros Hd He. unfold shr_fexp. cbn [Zdigits2]. rewrite fexp64_eq. f_equal. lia.
Qed.

Lemma round_nearest_even_bounds (m : Z) (l : location) :
  m <= round_nearest_even m l <= m + 1.
Proof.
  destruct l as [|[]]; cbn [round_nearest_even]; try lia.
  destruct (Z.even m); lia.
Qed.

Lemma shr_record_of_loc_m (m : Z) (l : location) : shr_m (shr_record_of_loc m l) = m.
Proof. destruct l as [|[]]; reflexivity. Qed.

(** The last step of rounding, on a mantissa of 53 or 54 bits. *)
Lemma finish_round (sx : bool) (mr : positive) (e' : Z) :
  2 ^ 52 <= Zpos mr <= 2 ^ 53 ->
  -1074 <= e' ->
  let '(mrs, e'') := shr_fexp 53 1024 (Zpos mr) e' loc_Exact in
  exists m2 : positive,
    shr_m mrs = Zpos m2 /\
    ((e'' = e' /\ m2 = mr) \/ (e'' = e' + 1)).
Proof.
  intros Hmr He.
  assert (Hlow : 52 < Zpos (digits2_pos mr)) by (apply digits2_pos_lower; lia).
  assert (Hup : Zpos (digits2_pos mr) <= 54).
  { apply digits2_pos_upper; [lia|]. change (2 ^ 54) with (2 * 2 ^ 53). lia. }
  rewrite shr_fexp_normal by lia.
  destruct (Z.eq_dec (Zpos (digits2_pos mr)) 53) as [H53|H53].
  - rewrite H53. cbn [Z.sub Z.add Z.opp Z.pos_sub shr shr_record_of_loc shr_m].
    exists mr. split; [reflexivity | left; split; reflexivity].
  - assert (H54 : Zpos (digits2_pos mr) = 54) by lia. rewrite H54.
    change (54 - 53) with 1. cbn [shr SpecFloat.iter_pos shr_record_of_loc].
    assert (Hbig : 2 ^ 53 <= Zpos mr).
    { destruct (digits2_pos_bounds mr) as [Hl _]. rewrite H54 in Hl. exact Hl. }
    assert (Heq : mr = 9007199254740992%positive) by (change (2 ^ 53) with 9007199254740992 in *; lia).
    subst mr. cbn. exists 4503599627370496%positive. split; [reflexivity | right; reflexivity].
Qed.

Lemma binary_round_ge (z : positive) (ez : Z) (mt : positive) (et : Z) :
  2 ^ 52 <= Zpos mt < 2 ^ 53 ->
  -1074 <= et ->
  ez <= et ->
  Zpos mt * 2 ^ (et - ez) <= Zpos z ->
  SFleb (S754_finite false mt et) (binary_round 53 1024 false z ez) = true.
Proof.
  intros Hmt Het Hez Hz.
  set (dg := Zpos (digits2_pos z)).
  assert (Hpow : 2 ^ (52 + (et - ez)) <= Zpos z).
  { rewrite Z.pow_add_r by lia. 
    assert (0 < 2 ^ (et - ez)) by (apply Z.pow_pos_nonneg; lia). nia. }
  assert (Hdg : 52 + (et - ez) < dg) by (apply digits2_pos_lower; lia).
  destruct (digits2_pos_bounds z) as [Hzl Hzu]. fold dg in Hzl, Hzu.
  unfold binary_round.
  assert (Halign : shl_align z ez (fexp64 (Zpos (digits2_pos z) + ez)) = (z, ez)).
  { unfold shl_align. rewrite fexp64_eq. fold dg.
    destruct (Z.max (dg + ez - 53) (-1074) - ez) eqn:Hs; try reflexivity. lia. }
  rewrite Halign. unfold binary_round_aux.
  rewrite shr_fexp_normal by (fold dg; lia). fold dg.
  destruct (dg - 53) as [|k|k] eqn:Hk; [| |lia].
  - (* no shift *)
    cbn [shr shr_record_of_loc shr_m loc_of_shr_record round_nearest_even].
    rewrite shr_fexp_normal by (fold dg; lia). fold dg. rewrite Hk.
    cbn [shr shr_record_of_loc shr_m].
    assert (et = ez) by lia. subst et. rewrite Z.sub_diag, Z.mul_1_r in Hz.
    destruct (Z.leb ez (1024 - 53)); unfold SFleb, SFcompare.
    + rewrite Z.compare_refl. rewrite Pos.compare_cont_spec. cbn [Pos.switch_Eq].
      destruct (Pos.compare_spec mt z); try reflexivity. lia.
    + reflexivity.
  - (* shift by k *)
    cbn [shr].
    set (mrs' := SpecFloat.iter_pos shr_1 k (shr_record_of_loc (Z.pos z) loc_Exact)).
    assert (Hm1 : shr_m mrs' = Zpos z / 2 ^ Zpos k).
    { unfold mrs'. rewrite iter_pos_shr_1; rewrite shr_record_of_loc_m; [reflexivity|lia]. }
    assert (Hm1l : 2 ^ 52 <= shr_m mrs').
    { rewrite Hm1. apply Z.div_le_lower_bound; [apply Z.pow_pos_nonneg; lia|].
      rewrite <- Z.pow_add_r by lia. replace (Zpos k + 52) with (dg - 1) by lia. exact Hzl. }
    assert (Hm1u : shr_m mrs' < 2 ^ 53).
    { rewrite Hm1. apply Z.div_lt_upper_bound; [apply Z.pow_pos_nonneg; lia|].
      rewrite <- Z.pow_add_r by lia. replace (Zpos k + 53) with dg by lia. exact Hzu. }
    pose proof (round_nearest_even_bounds (shr_m mrs') (loc_of_shr_record mrs')) as Hr.
    destruct (round_nearest_even (shr_m mrs') (loc_of_shr_record mrs')) as [|mr|mr];
      [change (2 ^ 52) with 4503599627370496 in *; lia| 
      |change (2 ^ 52) with 4503599627370496 in *; lia].
    pose proof (finish_round false mr (ez + Zpos k) ltac:(lia) ltac:(lia)) as Hfin.
    destruct (shr_fexp 53 1024 (Z.pos mr) (ez + Z.pos k) loc_Exact) as [mrs'' e''].
    destruct Hfin as (m2 & Hm2 & Hcase). rewrite Hm2.
    destruct (Z.leb e'' (1024 - 53)); [|reflexivity].
    unfold SFleb, SFcompare.
    destruct Hcase as [[He'' Hm2eq]|He''].
    + subst e'' m2.
      destruct (Z.compare_spec et (ez + Zpos k)) as [Heq|Hlt|Hgt]; [|reflexivity|lia].
      rewrite Pos.compare_cont_spec. cbn [Pos.switch_Eq].
      destruct (Pos.compare_spec mt mr) as [|?|Hbad]; try reflexivity.
      exfalso.
      assert (Hmt_le : Zpos mt <= shr_m mrs').
      { rewrite Hm1. apply Z.div_le_lower_bound; [apply Z.pow_pos_nonneg; lia|].
        replace (Zpos k) with (et - ez) by lia. lia. }
      lia.
    + destruct (Z.compare_spec et e'') as [Heq|Hlt|Hgt]; [lia|reflexivity|lia].
Qed.

Lemma shr_nonneg (r : shr_record) (e n : Z) :
  0 <= shr_m r -> 0 <= shr_m (fst (shr r e n)).
Proof.
  intros Hr. destruct n as [|k|k]; cbn [shr fst]; try exact Hr.
  rewrite iter_pos_shr_1 by exact Hr. apply Z.div_pos; [exact Hr|].
  apply Z.pow_pos_nonneg; lia.
Qed.

Lemma shr_fexp_nonneg (m e : Z) (l : location) :
  0 <= m -> 0 <= shr_m (fst (shr_fexp 53 1024 m e l)).
Proof.
  intros Hm. unfold shr_fexp. apply shr_nonneg. rewrite shr_record_of_loc_m. exact Hm.
Qed.

(** Rounding a non-negative mantissa yields a zero, a finite number or an
    infinity of the requested sign, never a NaN. *)
Lemma binary_round_aux_sign (sx : bool) (m e : Z) (l : location) :
  0 <= m ->
  match binary_round_aux 53 1024 sx m e l with
  | S754_zero s | S754_infinity s | S754_finite s _ _ => s = sx
  | S754_nan => False
  end.
Proof.
  intros Hm. unfold binary_round_aux.
  pose proof (shr_fexp_nonneg m e l Hm) as H1.
  destruct (shr_fexp 53 1024 m e l) as [mrs' e']. cbn [fst] in H1.
  pose proof (round_nearest_even_bounds (shr_m mrs') (loc_of_shr_record mrs')) as Hr.
  pose proof (shr_fexp_nonneg (round_nearest_even (shr_m mrs') (loc_of_shr_record mrs'))
                e' loc_Exact ltac:(lia)) as H2.
  destruct (shr_fexp 53 1024 _ e' loc_Exact) as [mrs'' e'']. cbn [fst] in H2.
  destruct (shr_m mrs'') as [|p|p]; [reflexivity| |lia].
  destruct (Z.leb e'' (1024 - 53)); reflexivity.
Qed.

Lemma binary_round_negative (z : positive) (ez : Z) :
  SFleb (binary_round 53 1024 true z ez) (S754_zero false) = true.
Proof.
  unfold binary_round.
  destruct (shl_align z ez (fexp64 (Zpos (digits2_pos z) + ez))) as [mz ez'].
  pose proof (binary_round_aux_sign true (Zpos mz) ez' loc_Exact ltac:(lia)) as Hs.
  destruct (binary_round_aux 53 1024 true (Zpos mz) ez' loc_Exact) as [s|s| |s m e];
    try contradiction; subst s; reflexivity.
Qed.

Lemma shl_align_value (m : positive) (e ez : Z) :
  ez <= e -> Zpos (fst (shl_align m e ez)) = Zpos m * 2 ^ (e - ez).
Proof.
  intros He. unfold shl_align.
  destruct (ez - e) as [|d|d] eqn:Hd; cbn [fst].
  - replace (e - ez) with 0 by lia. lia.
  - lia.
  - rewrite iter_xO. f_equal. f_equal. lia.
Qed.

Lemma SFadd_pos_ge (m : positive) (e : Z) (mc : positive) (ec : Z) (mt : positive) (et : Z) :
  2 ^ 52 <= Zpos mt < 2 ^ 53 ->
  -1074 <= et ->
  Z.min e ec <= et ->
  Zpos mt * 2 ^ (et - Z.min e ec)
  <= Zpos m * 2 ^ (e - Z.min e ec) + Zpos mc * 2 ^ (ec - Z.min e ec) ->
  SFleb (S754_finite false mt et)
        (SF64add (S754_finite false m e) (S754_finite false mc ec)) = true.
Proof.
  intros Hmt Het Hez Hsum. unfold SF64add, SFadd. cbv zeta.
  cbn [cond_Zopp].
  pose proof (shl_align_value m e (Z.min e ec) ltac:(lia)) as Ha.
  pose proof (shl_align_value mc ec (Z.min e ec) ltac:(lia)) as Hb.
  set (a := fst (shl_align m e (Z.min e ec))) in *.
  set (b := fst (shl_align mc ec (Z.min e ec))) in *.
  change (Zpos a + Zpos b) with (Zpos (a + b)). cbn [binary_normalize].
  apply binary_round_ge; try assumption.
  rewrite Pos2Z.inj_add, Ha, Hb. exact Hsum.
Qed.

Lemma SFsub_nonpos (s : bool) (m : positive) (e : Z) (mc : positive) (ec : Z) :
  (s = true \/
   Zpos m * 2 ^ (e - Z.min e ec) <= Zpos mc * 2 ^ (ec - Z.min e ec)) ->
  SFleb (SF64sub (S754_finite s m e) (S754_finite false mc ec)) (S754_zero false) = true.
Proof.
  intros Hcase. unfold SF64sub, SFsub. cbv zeta.
  pose proof (shl_align_value m e (Z.min e ec) ltac:(lia)) as Ha.
  pose proof (shl_align_value mc ec (Z.min e ec) ltac:(lia)) as Hb.
  set (a := fst (shl_align m e (Z.min e ec))) in *.
  set (b := fst (shl_align mc ec (Z.min e ec))) in *.
  cbn [cond_Zopp].
  assert (Hz : cond_Zopp s (Zpos a) - Zpos b <= 0).
  { destruct Hcase as [->|Hle]; [cbn [cond_Zopp]; lia|].
    destruct s; cbn [cond_Zopp]; lia. }
  destruct (cond_Zopp s (Zpos a) - Zpos b) as [|z|z]; [reflexivity|lia|].
  cbn [binary_normalize]. apply binary_round_negative.
Qed.

End Binary64Rounding.

(** * The update in binary64 arithmetic *)

Section Binary64Model.

Local Open Scope float_scope.

(** The decimal constants are the doubles nearest to [0.2] and [0.8]. *)
Lemma GRAVITY_binary64 : (GRAVITY : float) = 0x1.999999999999ap-3.
Proof. reflexivity. Qed.

Lemma BOUNCE_FACTOR_binary64 : (BOUNCE_FACTOR : float) = 0x1.999999999999ap-1.
Proof. reflexivity. Qed.

(** A finite double minus itself is [+0]. *)
Lemma sub_diag_finite (a : float) : is_finite a = true -> a - a = zero.
Proof.
  intros Hfin. apply Prim2SF_inj. rewrite FloatAxioms.sub_spec.
  unfold is_finite, is_nan, is_infinity in Hfin.
  rewrite !FloatAxioms.eqb_spec, FloatAxioms.abs_spec in Hfin.
  destruct (Prim2SF a) as [s|s| |s m e].
  - destruct s; reflexivity.
  - destruct s; vm_compute in Hfin; discriminate Hfin.
  - vm_compute in Hfin. discriminate Hfin.
  - unfold SF64sub, SFsub. rewrite Z.sub_diag. reflexivity.
Qed.

Lemma mul_nan_l (a : float) : nan * a = nan.
Proof. apply Prim2SF_inj. rewrite FloatAxioms.mul_spec. reflexivity. Qed.

Lemma add_nan_l (a : float) : nan + a = nan.
Proof. apply Prim2SF_inj. rewrite FloatAxioms.add_spec. reflexivity. Qed.

Lemma coincident_distance (s1 s2 : Sphere float) :
  position s1 = position s2 ->
  is_finite (x (position s1)) = true ->
  is_finite (y (position s1)) = true ->
  centerDistance s1 s2 = zero.
Proof.
  intros Hpos Hx Hy. unfold centerDistance, Vector2_minus.
  rewrite <- Hpos. cbn [x y dsub dmul dadd dsqrt binary64_arith].
  rewrite (sub_diag_finite _ Hx), (sub_diag_finite _ Hy). reflexivity.
Qed.

Lemma coincident_normal (s1 s2 : Sphere float) :
  position s1 = position s2 ->
  is_finite (x (position s1)) = true ->
  is_finite (y (position s1)) = true ->
  contactNormal s1 s2 = mkVector2 nan nan.
Proof.
  intros Hpos Hx Hy.
  unfold contactNormal, Vector2_scale, Vector2_minus.
  rewrite (coincident_distance s1 s2 Hpos Hx Hy), <- Hpos.
  cbn [x y dsub dmul ddiv of_int binary64_arith].
  rewrite (sub_diag_finite _ Hx), (sub_diag_finite _ Hy). reflexivity.
Qed.

(** C7. For two spheres whose centres coincide (finite coordinates), inside
    [handleSphereCollision] the distance is [0], the overlap test succeeds,
    so the normalisation of line 74 is executed with the reciprocal
    [1.0 / distance = +infinity], and both components of the normal are NaN. *)
Theorem coincident_centres_nan_normal (s1 s2 : Sphere float) :
  position s1 = position s2 ->
  is_finite (x (position s1)) = true ->
  is_finite (y (position s1)) = true ->
  centerDistance s1 s2 = zero /\
  overlapping s1 s2 = true /\
  (of_int 1 / centerDistance s1 s2)%dbl = infinity /\
  contactNormal s1 s2 = mkVector2 nan nan /\
  is_finite (x (contactNormal s1 s2)) = false /\
  is_finite (y (contactNormal s1 s2)) = false.
Proof.
  intros Hpos Hx Hy.
  pose proof (coincident_distance s1 s2 Hpos Hx Hy) as Hd.
  pose proof (coincident_normal s1 s2 Hpos Hx Hy) as Hn.
  unfold overlapping. rewrite Hn, Hd. repeat split.
Qed.

(** The degenerate call occurs in the loop itself: of two spheres spawned by
    clicks on the same pixel of the resting line [y = height - radius], the
    first is clamped back onto that line by its edge check and then meets
    the second, still where it was spawned. *)
Lemma coincident_centres_nan_normal_witness :
  let s1 : Sphere float := moveSphere (newSphere 100 460 1) in
  let s2 : Sphere float := newSphere 100 460 2 in
  centerDistance s1 s2 = zero /\
  overlapping s1 s2 = true /\
  (of_int 1 / centerDistance s1 s2)%dbl = infinity /\
  contactNormal s1 s2 = mkVector2 nan nan /\
  is_finite (x (contactNormal s1 s2)) = false /\
  is_finite (y (contactNormal s1 s2)) = false.
Proof.
  apply (coincident_centres_nan_normal
           (moveSphere (newSphere 100 460 1)) (newSphere 100 460 2));
    reflexivity.
Defined.

(** X14.  On doubles two spheres with the same finite centre are never
    separated: the NaN normal makes the closing speed NaN, the test
    [relativeSpeed < 0] fails, and both spheres are returned unchanged. *)
Lemma coincident_centres_stay (s1 s2 : Sphere float) :
  position s1 = position s2 ->
  is_finite (x (position s1)) = true ->
  is_finite (y (position s1)) = true ->
  handleSphereCollision s1 s2 = (s1, s2).
Proof.
  intros Hpos Hx Hy. apply handleSphereCollision_not_closing.
  unfold closingSpeed. rewrite (coincident_normal s1 s2 Hpos Hx Hy). cbv zeta.
  cbn [x y dmul dadd dlt of_int binary64_arith].
  rewrite !mul_nan_l, add_nan_l. reflexivity.
Qed.



(** ** The edge tests on doubles

    When a test of lines 155-177 fails on a coordinate that is a number,
    the coordinate is on the inner side of that edge. *)

Lemma valid_digits (m : positive) (e : Z) :
  valid_binary (S754_finite false m e) = true ->
  (Zpos m < 2 ^ 53 /\ (-1074 < e -> 2 ^ 52 <= Zpos m))%Z.
Proof.
  cbn [SpecFloat.valid_binary]. unfold bounded, canonical_mantissa. rewrite fexp64_eq.
  intros Hb. apply andb_prop in Hb. destruct Hb as [Hc _].
  apply Z.eqb_eq in Hc.
  destruct (digits2_pos_bounds m) as [Hl Hu]. split.
  - assert (Zpos (digits2_pos m) <= 53)%Z by lia.
    pose proof (Z.pow_le_mono_r 2 _ _ ltac:(lia) H). lia.
  - intros He. assert (Zpos (digits2_pos m) = 53)%Z by lia.
    rewrite H in Hl. exact Hl.
Qed.

Lemma is_nan_spec (a : float) : is_nan a = false -> Prim2SF a <> S754_nan.
Proof.
  unfold is_nan. rewrite FloatAxioms.eqb_spec. intros Hn Heq. rewrite Heq in Hn.
  discriminate Hn.
Qed.

(** Adding 20 to a number above [hi] gives at least [lim = hi + 20], when
    both are doubles of the same binade at or above that of 20. *)
Lemma add_20_reaches (mh ml : positive) (eh : Z) (a : float) :
  (-48 <= eh)%Z ->
  (2 ^ 52 <= Zpos ml < 2 ^ 53)%Z ->
  (Zpos ml * 2 ^ (eh + 48) = Zpos mh * 2 ^ (eh + 48) + 5629499534213120)%Z ->
  is_nan a = false ->
  SFleb (S754_finite false ml eh) (Prim2SF (a + 20)) = false ->
  SFleb (Prim2SF a) (S754_finite false mh eh) = true.
Proof.
  intros Heh Hml Hsum Hnan Htest.
  pose proof (is_nan_spec a Hnan) as Hnn.
  pose proof (Prim2SF_valid a) as Hvalid.
  rewrite FloatAxioms.add_spec in Htest.
  change (Prim2SF 20) with (S754_finite false 5629499534213120 (-48)) in Htest.
  destruct (Prim2SF a) as [s|s| |s m e]; [reflexivity| |contradiction|].
  - destruct s; [reflexivity | discriminate Htest].
  - destruct s; [reflexivity|].
    destruct (valid_digits m e Hvalid) as [Hmu Hml'].
    unfold SFleb, SFcompare.
    destruct (Z.compare_spec e eh) as [Heq|Hlt|Hgt]; [|reflexivity|].
    + rewrite Pos.compare_cont_spec. cbn [Pos.switch_Eq].
      destruct (Pos.compare_spec m mh) as [|?|Hbig]; try reflexivity.
      exfalso. subst e.
      rewrite SFadd_pos_ge in Htest; [discriminate Htest|lia|lia|lia|].
      rewrite Z.min_r by lia.
      replace (eh - -48)%Z with (eh + 48)%Z by lia. rewrite Z.sub_diag.
      change (2 ^ 0)%Z with 1%Z. rewrite Z.mul_1_r.
      rewrite Hsum. apply Z.add_le_mono_r, Z.mul_le_mono_nonneg_r;
        [apply Z.pow_nonneg; lia | clear - Hbig; lia].
    + exfalso.
      rewrite SFadd_pos_ge in Htest; [discriminate Htest|lia|lia|lia|].
      rewrite Z.min_r by lia.
      replace (eh - -48)%Z with (eh + 48)%Z by lia. rewrite Z.sub_diag.
      change (2 ^ 0)%Z with 1%Z. rewrite Z.mul_1_r.
      replace (e - -48)%Z with (Z.succ (e - eh - 1) + (eh + 48))%Z by lia.
      rewrite (Z.pow_add_r 2 (Z.succ (e - eh - 1)) (eh + 48)), Z.pow_succ_r by lia.
      specialize (Hml' ltac:(lia)).
      assert (Hp : (0 < 2 ^ (eh + 48))%Z) by (apply Z.pow_pos_nonneg; lia).
      assert (Hq : (1 <= 2 ^ (e - eh - 1))%Z)
        by (pose proof (Z.pow_pos_nonneg 2 (e - eh - 1)); lia).
      assert (Hm2 : (2 ^ 53 <= Zpos m * (2 * 2 ^ (e - eh - 1)))%Z).
      { change (2 ^ 53)%Z with (2 ^ 52 * 2)%Z. apply Z.mul_le_mono_nonneg; lia. }
      rewrite Z.mul_assoc.
      apply Z.le_trans with (2 ^ 53 * 2 ^ (eh + 48))%Z.
      * apply Z.lt_le_incl, Z.mul_lt_mono_pos_r; lia.
      * apply Z.le_trans with (Zpos m * (2 * 2 ^ (e - eh - 1)) * 2 ^ (eh + 48))%Z; [|lia].
        apply Z.mul_le_mono_nonneg_r; lia.
Qed.

(** Subtracting 20 from a number below 20 gives at most 0. *)
Lemma sub_20_clears (a : float) :
  is_nan a = false ->
  SFleb (Prim2SF (a - 20)) (S754_zero false) = false ->
  SFleb (S754_finite false 5629499534213120 (-48)) (Prim2SF a) = true.
Proof.
  intros Hnan Htest.
  pose proof (is_nan_spec a Hnan) as Hnn.
  pose proof (Prim2SF_valid a) as Hvalid.
  rewrite FloatAxioms.sub_spec in Htest.
  change (Prim2SF 20) with (S754_finite false 5629499534213120 (-48)) in Htest.
  destruct (Prim2SF a) as [s|s| |s m e]; [| |contradiction|].
  - destruct s; discriminate Htest.
  - destruct s; [discriminate Htest | reflexivity].
  - destruct s.
    + rewrite SFsub_nonpos in Htest by (left; reflexivity). discriminate Htest.
    + destruct (valid_digits m e Hvalid) as [Hmu Hml'].
      unfold SFleb, SFcompare.
      destruct (Z.compare_spec (-48) e) as [Heq|Hlt|Hgt]; [|reflexivity|].
      * rewrite Pos.compare_cont_spec. cbn [Pos.switch_Eq].
        destruct (Pos.compare_spec 5629499534213120 m) as [|?|Hbig]; try reflexivity.
        exfalso. subst e.
        rewrite SFsub_nonpos in Htest; [discriminate Htest|right].
        rewrite Z.min_id, Z.sub_diag. change (2 ^ 0)%Z with 1%Z.
        rewrite !Z.mul_1_r. apply Z.lt_le_incl, Pos2Z.pos_lt_pos, Hbig.
      * exfalso.
        rewrite SFsub_nonpos in Htest; [discriminate Htest|right].
        rewrite Z.min_l by lia. rewrite Z.sub_diag.
        change (2 ^ 0)%Z with 1%Z. rewrite Z.mul_1_r.
        replace (-48 - e)%Z with (Z.succ (-48 - e - 1)) by lia.
        rewrite Z.pow_succ_r by lia.
        assert (Hq : (1 <= 2 ^ (-48 - e - 1))%Z)
          by (pose proof (Z.pow_pos_nonneg 2 (-48 - e - 1)); lia).
        change (2 ^ 53)%Z with 9007199254740992%Z in Hmu.
        apply Z.le_trans with (5629499534213120 * (2 * 1))%Z; [lia|].
        apply Z.mul_le_mono_nonneg_l; lia.
Qed.

Lemma left_edge_clear (a : float) :
  is_nan a = false -> (a - 20 <=? 0) = false -> (20 <=? a) = true.
Proof.
  intros Hnan Htest. rewrite FloatAxioms.leb_spec in *.
  change (Prim2SF 0) with (S754_zero false) in Htest.
  change (Prim2SF 20) with (S754_finite false 5629499534213120 (-48)).
  apply sub_20_clears; assumption.
Qed.

Lemma right_edge_clear (a : float) :
  is_nan a = false -> (640 <=? a + 20) = false -> (a <=? 620) = true.
Proof.
  intros Hnan Htest. rewrite FloatAxioms.leb_spec in *.
  change (Prim2SF 640) with (S754_finite false 5629499534213120 (-43)) in Htest.
  change (Prim2SF 620) with (S754_finite false 5453577673768960 (-43)).
  apply (add_20_reaches 5453577673768960 5629499534213120 (-43)); try assumption.
  - lia.
  - split; [vm_compute; discriminate | reflexivity].
  - reflexivity.
Qed.

Lemma bottom_edge_clear (a : float) :
  is_nan a = false -> (480 <=? a + 20) = false -> (a <=? 460) = true.
Proof.
  intros Hnan Htest. rewrite FloatAxioms.leb_spec in *.
  change (Prim2SF 480) with (S754_finite false 8444249301319680 (-44)) in Htest.
  change (Prim2SF 460) with (S754_finite false 8092405580431360 (-44)).
  apply (add_20_reaches 8092405580431360 8444249301319680 (-44)); try assumption.
  - lia.
  - split; [vm_compute; discriminate | reflexivity].
  - reflexivity.
Qed.

(** After the edge checks a centre that is a number is between the side
    walls and above the floor. *)
Lemma resolveBoundaries_inside_binary64 (s : Sphere float) :
  is_nan (x (position s)) = false ->
  is_nan (y (position s)) = false ->
  withinWallsb (resolveBoundaries s) = true /\ aboveFloorb (resolveBoundaries s) = true.
Proof.
  intros Hx Hy. unfold withinWallsb, aboveFloorb, resolveBoundaries, bounceSides, bounceBottom.
  cbn [dadd dsub dle of_int binary64_arith].
  change (float_of_int SPHERE_RADIUS) with 20.
  change (float_of_int SCREEN_HEIGHT) with 480.
  change (float_of_int SCREEN_WIDTH) with 640.
  change (float_of_int (SCREEN_HEIGHT - SPHERE_RADIUS)) with 460.
  change (float_of_int (SCREEN_WIDTH - SPHERE_RADIUS)) with 620.
  change (float_of_int 0) with 0.
  destruct (480 <=? y (position s) + 20) eqn:Hbottom;
    cbn [position velocity x y];
    (destruct (x (position s) - 20 <=? 0) eqn:Hleft;
     [|destruct (640 <=? x (position s) + 20) eqn:Hright]);
    cbn [position velocity x y]; split;
    try reflexivity;
    try (apply bottom_edge_clear; assumption);
    (rewrite (left_edge_clear _ Hx Hleft), (right_edge_clear _ Hx Hright); reflexivity).
Qed.

(** ** The concrete runs again, on doubles

    The runs evaluated above in exact arithmetic, executed with the machine
    arithmetic: the outcomes differ from the exact ones in the last digits
    only, and the same bounds are crossed. *)

(** A sphere spawned on the top row stays above [y = radius]. *)
Lemma ceiling_not_enforced_binary64 :
  (y (position (firstSphere (updateAll (spawn 100 0 7 [])))) <? of_int SPHERE_RADIUS)
  = true.
Proof. reflexivity. Qed.

(** The floor bounce of a sphere falling at [v = 1] ends at
    [-(1 + 0.2) * 0.8], which is not [-1 * 0.8]. *)
Lemma floor_bounce_binary64 :
  firstSphere (updateAll [ball 100 459 0 1 7])
  = ball 100 460 0 (- (1 + GRAVITY) * BOUNCE_FACTOR) 7 /\
  (y (velocity (firstSphere (updateAll [ball 100 459 0 1 7])))
   =? - 1 * BOUNCE_FACTOR) = false.
Proof. split; reflexivity. Qed.


(** The loop and the staged tick disagree on the first sphere's height. *)
Lemma stagedTick_differs_binary64 :
  (y (position (firstSphere (updateAll (spawn 100 140 2 (spawn 100 100 1 [])))))
   <? y (position (firstSphere (stagedTick (spawn 100 140 2 (spawn 100 100 1 []))))))
  = true.
Proof. reflexivity. Qed.

(** ** NaN coordinates and the edge tests *)

Lemma is_nan_eq (a : float) : is_nan a = true -> a = nan.
Proof.
  intros Hn. apply Prim2SF_inj. change (Prim2SF nan) with S754_nan.
  unfold is_nan in Hn. rewrite FloatAxioms.eqb_spec in Hn.
  destruct (Prim2SF a) as [s|s| |s m e]; [| |reflexivity|].
  - destruct s; discriminate Hn.
  - destruct s; discriminate Hn.
  - exfalso. unfold SFeqb, SFcompare in Hn.
    rewrite Z.compare_refl, Pos.compare_cont_refl in Hn.
    destruct s; discriminate Hn.
Qed.

(** X15.  A NaN coordinate of a centre is never repaired: every comparison
    of the edge checks is false on NaN, so the movement step leaves the
    coordinate NaN, and the velocity component along it is not reversed. *)
Theorem nan_coordinate_persists (s : Sphere float) :
  (is_nan (x (position s)) = true ->
   x (position (moveSphere s)) = nan /\
   x (velocity (moveSphere s)) = x (velocity s)) /\
  (is_nan (y (position s)) = true ->
   y (position (moveSphere s)) = nan /\
   y (velocity (moveSphere s)) = (y (velocity s) + GRAVITY)%dbl).
Proof.
  destruct s as [[px py] [vx vy] c b]. cbn [position velocity x y]. split.
  - intros Hn. apply is_nan_eq in Hn. subst px.
    unfold moveSphere, resolveBoundaries, integrate, Vector2_plus.
    cbn [position velocity x y color bounceFactor dadd binary64_arith].
    rewrite add_nan_l. unfold bounceBottom.
    cbn [position velocity x y color bounceFactor].
    destruct (_ >=? _)%dbl; unfold bounceSides;
      cbn [position velocity x y color bounceFactor];
      change (nan - of_int SPHERE_RADIUS <=? of_int 0)%dbl with false;
      change (nan + of_int SPHERE_RADIUS >=? of_int SCREEN_WIDTH)%dbl with false;
      cbn [position velocity x y]; split; reflexivity.
  - intros Hn. apply is_nan_eq in Hn. subst py.
    unfold moveSphere, resolveBoundaries, integrate, Vector2_plus.
    cbn [position velocity x y color bounceFactor dadd binary64_arith].
    rewrite add_nan_l. unfold bounceBottom.
    cbn [position velocity x y color bounceFactor].
    change (nan + of_int SPHERE_RADIUS >=? of_int SCREEN_HEIGHT)%dbl with false.
    cbv iota. unfold bounceSides. cbn [position velocity x y color bounceFactor].
    repeat match goal with
           | |- context [if ?c then _ else _] => destruct c
           end; split; reflexivity.
Qed.

Lemma nan_coordinate_persists_witness :
  let s : Sphere float := ball nan nan 1 2 7 in
  (x (position (moveSphere s)) = nan /\
   x (velocity (moveSphere s)) = x (velocity s)) /\
  (y (position (moveSphere s)) = nan /\
   y (velocity (moveSphere s)) = (y (velocity s) + GRAVITY)%dbl).
Proof.
  cbv zeta.
  pose proof (nan_coordinate_persists (ball nan nan 1 2 7)) as [Hx Hy].
  split; [apply Hx | apply Hy]; reflexivity.
Defined.

Lemma coincident_centres_stay_witness :
  let s1 : Sphere float := moveSphere (newSphere 100 460 1) in
  let s2 : Sphere float := newSphere 100 460 2 in
  handleSphereCollision s1 s2 = (s1, s2).
Proof.
  apply (coincident_centres_stay
           (moveSphere (newSphere 100 460 1)) (newSphere 100 460 2));
    reflexivity.
Defined.

End Binary64Model.

(** * Where the code departs from the specification *)

Section Departures.

(** C1 fails as stated: a sphere spawned by a click on the top row of the
    window ends the next tick at [y = 0.2 < radius]; nothing in the loop
    tests the top edge.  In exact arithmetic and on doubles alike. *)
Lemma ceiling_not_enforced :
  (updateAll (spawn 100 0 7 [])
   = [mkSphere (mkVector2 100 0.2) (mkVector2 0 0.2) 7 BOUNCE_FACTOR]
   /\ ~ belowCeiling (mkSphere (mkVector2 100 0.2) (mkVector2 0 0.2) 7 BOUNCE_FACTOR))%R /\
  (y (position (firstSphere (updateAll (spawn 100 0 7 [])))) <? of_int SPHERE_RADIUS)%float
  = true.
Proof. split; [exact ceiling_not_enforced_exact | exact ceiling_not_enforced_binary64]. Qed.

(** C2 fails as stated: for two spheres spawned at rest at [(100, 100)] and
    [(100, 140)] the loop of the source and the staged tick end in different
    states (heights [100.1] and [140.5] against [100.2] and [140.2]).  In
    exact arithmetic and on doubles alike. *)
Lemma stagedTick_differs :
  (let world : list (Sphere R) := spawn 100 140 2 (spawn 100 100 1 []) in
   updateAll world = [ball 100 100.1 0 0 1; ball 100 140.5 0 0.4 2] /\
   stagedTick world = [ball 100 100.2 0 0.2 1; ball 100 140.2 0 0.2 2] /\
   updateAll world <> stagedTick world)%R /\
  (let world : list (Sphere float) := spawn 100 140 2 (spawn 100 100 1 []) in
   updateAll world <> stagedTick world).
Proof.
  split; [exact stagedTick_differs_exact|].
  cbv zeta. intros Heq.
  pose proof stagedTick_differs_binary64 as Hlt. rewrite Heq in Hlt.
  vm_compute in Hlt. discriminate Hlt.
Qed.

(** C3 fails as stated on doubles: spawn spheres at [(100, 100)] and
    [(100, 130)]; in the next tick the first one moves and is resolved
    against the second (they overlap and close), and the call leaves their
    centres [39.999999999999986 < 2 * radius] apart. *)
Lemma separation_short_on_doubles :
  let s1 : Sphere float := moveSphere (newSphere 100 100 1) in
  let s2 : Sphere float := newSphere 100 130 2 in
  overlapping s1 s2 = true /\
  (closingSpeed s1 s2 <? 0)%float = true /\
  centerDistance (fst (handleSphereCollision s1 s2)) (snd (handleSphereCollision s1 s2))
  = 0x1.3fffffffffffep+5%float /\
  (centerDistance (fst (handleSphereCollision s1 s2)) (snd (handleSphereCollision s1 s2))
   <? of_int (2 * SPHERE_RADIUS))%float = true.
Proof. cbv zeta. repeat split; reflexivity. Qed.

(** C4 fails as stated: a sphere one pixel above its resting height, falling
    at [v = 1], crosses the floor in one tick and ends it with vertical
    velocity [-(1 + 0.2) * 0.8 = -0.96], not [-v * restitution = -0.8].  In
    exact arithmetic and on doubles alike. *)
Lemma floor_bounce_adds_gravity_first :
  (let s := mkSphere (mkVector2 100 459) (mkVector2 0 1) 7 BOUNCE_FACTOR in
   0 < y (velocity s) /\
   y (position s) + IZR SPHERE_RADIUS < IZR SCREEN_HEIGHT /\
   updateAll [s]
   = [mkSphere (mkVector2 100 460) (mkVector2 0 (-0.96)) 7 BOUNCE_FACTOR] /\
   -0.96 <> - y (velocity s) * bounceFactor s /\
   -0.96 <> - y (velocity s) * BOUNCE_FACTOR)%R /\
  (y (velocity (firstSphere (updateAll [ball 100 459 0 1 7])))
   =? - 1 * BOUNCE_FACTOR)%float = false.
Proof. split; [exact floor_bounce_exact | exact (proj2 floor_bounce_binary64)]. Qed.

(** C5 fails as stated on doubles: a sphere spawned at [(100, 0)] falls for
    twenty ticks without meeting an edge; its velocity is then
    [4.000000000000001], not [20 * 0.2 = 4], and its height
    [42.00000000000001], not [0 + 0.2 * 210 = 42]. *)
Lemma free_fall_rounds_on_doubles :
  let run n : Sphere float := firstSphere (ticks n (spawn 100 0 7 [])) in
  forallb (fun k => negb (hitsEdge (integrate (run k)))) (seq 0 20) = true /\
  y (velocity (run 20%nat)) = 0x1.0000000000001p+2%float /\
  (of_int 20 * GRAVITY)%dbl = 4%float /\
  y (position (run 20%nat)) = 0x1.5000000000001p+5%float /\
  (of_int 0 + GRAVITY * of_int (Z.of_nat (triangular 20)))%dbl = 42%float.
Proof. cbv zeta. repeat split; reflexivity. Qed.


End Departures.

(** * Statements that hold in both arithmetics *)

Section BothArithmetics.

Local Open Scope float_scope.



(** Two spheres below the floor line that differ in their bounce factors
    only: both bounce with the global factor. *)
Lemma resolveBoundaries_ignores_bounceFactor_witness :
  let a : Sphere float := mkSphere (mkVector2 100 470) (mkVector2 0 3) 7 0.5 in
  let b : Sphere float := mkSphere (mkVector2 100 470) (mkVector2 0 3) 7 0.25 in
  position (resolveBoundaries a) = position (resolveBoundaries b) /\
  velocity (resolveBoundaries a) = velocity (resolveBoundaries b) /\
  bounceFactor (resolveBoundaries a) = bounceFactor a /\
  bounceFactor (resolveBoundaries b) = bounceFactor b.
Proof.
  apply (resolveBoundaries_ignores_bounceFactor
           (mkSphere (mkVector2 100 470) (mkVector2 0 3) 7 0.5 : Sphere float)
           (mkSphere (mkVector2 100 470) (mkVector2 0 3) 7 0.25));
    reflexivity.
Defined.

(** C2, as amended. In a tick in which no collision response fires the
    loop of the source and the three-pass staged tick of the specification
    end in the same state, for any number of spheres and every arithmetic:
    both are [moveSphere] on every sphere.  With two spheres, in exact
    arithmetic, they also agree when the only response of the tick fires
    once both spheres have moved, that is when the first call of the loop,
    the moved first sphere against the second one not yet moved, changes
    nothing.  Otherwise they can differ. *)
Theorem stagedTick_agrees :
  (forall (D : Type) (arith : Arith D) (spheres : list (Sphere D)),
      quietTick spheres ->
      updateAll spheres = stagedTick spheres /\
      updateAll spheres = map moveSphere spheres) /\
  (forall a b : Sphere R,
      idle (moveSphere a) b -> updateAll [a; b] = stagedTick [a; b]).
Proof.
  split.
  - intros D arith l Hquiet. rewrite (quiet_stagedTick l Hquiet).
    split; apply quiet_updateAll, Hquiet.
  - exact pair_agrees_exact.
Qed.

(** Three spheres too far apart to touch, on doubles; and the pair of
    [late_response_pair], whose response fires after both have moved. *)
Lemma stagedTick_agrees_witness :
  (let world : list (Sphere float) :=
     [ball 100 100 0 0 1; ball 300 100 0 0 2; ball 500 459 1 1 3] in
   updateAll world = stagedTick world /\
   updateAll world = map moveSphere world) /\
  (let a : Sphere R := ball 100 140 0 0 1 in
   let b : Sphere R := ball 100 99.5 0 1 2 in
   updateAll [a; b] = stagedTick [a; b])%R.
Proof.
  destruct stagedTick_agrees as [Hquiet Hpair]. split.
  - apply (Hquiet float _). intros i j a b Hij Ha Hb.
    destruct i as [|[|[|i]]], j as [|[|[|j]]];
      try discriminate Ha; try discriminate Hb; try congruence;
      cbn in Ha, Hb; injection Ha as <-; injection Hb as <-;
      (split; [|intros _]; vm_compute; reflexivity).
  - apply Hpair. exact (proj1 late_response_pair).
Defined.

(** Two overlapping spheres that collide with each other, and a third one,
    far from both, one pixel above its resting height and falling at
    [v = 1]. *)
Lemma floor_bounce_witness :
  let spheres : list (Sphere float) :=
    [ball 100 100 0 0 1; ball 100 130 0 0 2; ball 400 459 0 1 7] in
  updateAll spheres !! 2%nat =
  Some (mkSphere (mkVector2 (400 + 0) (of_int (SCREEN_HEIGHT - SPHERE_RADIUS)))
                 (mkVector2 0 (- (1 + GRAVITY) * BOUNCE_FACTOR)) 7 BOUNCE_FACTOR).
Proof.
  cbv zeta.
  refine (floor_bounce
            [ball 100 100 0 0 1; ball 100 130 0 0 2; ball 400 459 0 1 7] 2
            (ball 400 459 0 1 7 : Sphere float) eq_refl _ eq_refl eq_refl eq_refl).
  apply untouched_within. intros k j Hk Hj Hkj Hi a b Ha Hb.
  cbn [length] in Hk, Hj.
  destruct k as [|[|[|k]]], j as [|[|[|j]]]; try lia;
    vm_compute in Ha, Hb; injection Ha as <-; injection Hb as <-;
    vm_compute; reflexivity.
Defined.

(** C1, as amended. Whatever state a sphere is in, right after its own
    integration and edge checks in the loop body (lines 149-177, before the
    collision pass of lines 180-184) its centre satisfies
    [radius <= x <= width - radius] and [y <= height - radius]: in exact
    arithmetic, and on doubles whenever the integrated centre is a number.
    Nothing bounds [y] from below (there is no top-edge check), and nothing
    is said about the centre once later collisions of the same tick have
    moved it. *)
Theorem moveSphere_within_walls_above_floor :
  (forall s : Sphere R, withinWalls (moveSphere s) /\ aboveFloor (moveSphere s)) /\
  (forall s : Sphere float,
      is_nan (x (position (integrate s))) = false ->
      is_nan (y (position (integrate s))) = false ->
      withinWallsb (moveSphere s) = true /\ aboveFloorb (moveSphere s) = true).
Proof.
  split; [exact moveSphere_inside_exact|].
  intros s Hx Hy. unfold moveSphere. apply resolveBoundaries_inside_binary64; assumption.
Qed.

(** A sphere falling through the floor line at the right wall. *)
Lemma moveSphere_within_walls_above_floor_witness :
  withinWallsb (moveSphere (ball 630 470 5 3 7 : Sphere float)) = true /\
  aboveFloorb (moveSphere (ball 630 470 5 3 7 : Sphere float)) = true.
Proof.
  apply (proj2 moveSphere_within_walls_above_floor (ball 630 470 5 3 7)); reflexivity.
Defined.



End BothArithmetics.

(** * Drawing and the frame *)

Section DrawingProperties.

Local Open Scope Z_scope.

Lemma row_start_step (p y y' : Z) :
  0 <= p -> 0 <= y -> y < y' -> Z.quot (y * p) 4 + Z.quot p 4 <= Z.quot (y' * p) 4.
Proof.
  intros Hp Hy Hlt.
  assert (Hmul : y * p + p <= y' * p) by nia.
  rewrite !Z.quot_div_nonneg by nia.
  assert (Hle : (y * p + p) / 4 <= (y' * p) / 4) by (apply Z.div_le_mono; lia).
  pose proof (Z.div_mod (y * p) 4 ltac:(lia)).
  pose proof (Z.div_mod p 4 ltac:(lia)).
  pose proof (Z.div_mod (y * p + p) 4 ltac:(lia)).
  pose proof (Z.mod_pos_bound (y * p) 4 ltac:(lia)).
  pose proof (Z.mod_pos_bound p 4 ltac:(lia)).
  pose proof (Z.mod_pos_bound (y * p + p) 4 ltac:(lia)).
  lia.
Qed.

Lemma row_width (surface : SDL_Surface) :
  wellFormed surface -> w surface <= Z.quot (pitch surface) 4.
Proof.
  intros (Hw & Hh & Hp & _). rewrite Z.quot_div_nonneg by lia.
  apply Z.div_le_lower_bound; lia.
Qed.

Lemma offset_in_buffer (surface : SDL_Surface) (x y : Z) :
  wellFormed surface -> inWindow surface x y ->
  0 <= Z.quot (y * pitch surface) 4 + x < Z.of_nat (length (pixels surface)).
Proof.
  intros Hwf [Hx Hy]. pose proof (row_width surface Hwf) as Hrow.
  destruct Hwf as (Hw & Hh & Hp & Hlen).
  pose proof (row_start_step (pitch surface) y (h surface) ltac:(lia) ltac:(lia) ltac:(lia)).
  assert (0 <= Z.quot (y * pitch surface) 4) by (apply Z.quot_pos; nia).
  lia.
Qed.

Lemma row_is_int (surface : SDL_Surface) (x y : Z) :
  wellFormed surface -> inWindow surface x y ->
  in_int_range (y * pitch surface) = Some (y * pitch surface).
Proof.
  intros (Hw & Hh & Hp & Hlen & Hint) [Hx Hy]. unfold in_int_range.
  assert (0 <= y * pitch surface) by nia.
  assert (y * pitch surface <= h surface * pitch surface) by nia.
  destruct ((- 2 ^ 31 <=? y * pitch surface) && (y * pitch surface <? 2 ^ 31)) eqn:Htest;
    [reflexivity|].
  rewrite andb_false_iff in Htest. lia.
Qed.

Lemma offset_injective (surface : SDL_Surface) (x y x' y' : Z) :
  wellFormed surface -> inWindow surface x y -> inWindow surface x' y' ->
  Z.quot (y * pitch surface) 4 + x = Z.quot (y' * pitch surface) 4 + x' ->
  x = x' /\ y = y'.
Proof.
  intros Hwf [Hx Hy] [Hx' Hy'] Heq. pose proof (row_width surface Hwf) as Hrow.
  destruct Hwf as (Hw & Hh & Hp & Hlen).
  destruct (Z.lt_trichotomy y y') as [Hlt|[Heqy|Hgt]].
  - pose proof (row_start_step (pitch surface) y y' ltac:(lia) ltac:(lia) Hlt). lia.
  - subst y'. lia.
  - pose proof (row_start_step (pitch surface) y' y ltac:(lia) ltac:(lia) Hgt). lia.
Qed.


Lemma inWindow_test (surface : SDL_Surface) (x y : Z) :
  ((0 <=? x) && (x <? w surface) && (0 <=? y) && (y <? h surface)) = true
  <-> inWindow surface x y.
Proof. unfold inWindow. rewrite !andb_true_iff. lia. Qed.

Lemma inWindow_sameShape (a b : SDL_Surface) (x y : Z) :
  sameShape a b -> inWindow a x y -> inWindow b x y.
Proof. intros (Hw & Hh & _) Hin. unfold inWindow in *. rewrite <- Hw, <- Hh. exact Hin. Qed.

Lemma sameShape_refl (a : SDL_Surface) : sameShape a a.
Proof. repeat split. Qed.

Lemma sameShape_trans (a b c : SDL_Surface) :
  sameShape a b -> sameShape b c -> sameShape a c.
Proof. unfold sameShape. intuition congruence. Qed.

Lemma wellFormed_sameShape (a b : SDL_Surface) :
  sameShape a b -> wellFormed a -> wellFormed b.
Proof.
  unfold sameShape, wellFormed. intros (Hw & Hh & Hp & Hl).
  rewrite <- Hw, <- Hh, <- Hp, <- Hl. auto.
Qed.

Lemma getPixel_inWindow (surface : SDL_Surface) (x y : Z) :
  inWindow surface x y ->
  getPixel surface x y
  = pixels surface !! Z.to_nat (Z.quot (y * pitch surface) 4 + x).
Proof.
  intros Hin. unfold getPixel.
  destruct (inWindow_test surface x y) as [_ Htest]. rewrite (Htest Hin). reflexivity.
Qed.

(** Inside a well-formed surface a write stays inside the buffer, and is
    read back at its own pixel only. *)
Lemma setPixel_writes (surface : SDL_Surface) (x y color : Z) :
  wellFormed surface ->
  exists surface',
    setPixel surface x y color = Some surface' /\
    sameShape surface surface' /\
    forall x' y',
      inWindow surface x' y' ->
      getPixel surface' x' y'
      = if bool_decide (x' = x /\ y' = y) then Some color
        else getPixel surface x' y'.
Proof.
  intros Hwf. unfold setPixel.
  destruct ((0 <=? x) && (x <? w surface) && (0 <=? y) && (y <? h surface)) eqn:Htest.
  - apply inWindow_test in Htest. rewrite (row_is_int surface x y Hwf Htest).
    pose proof (offset_in_buffer surface x y Hwf Htest) as Hoff.
    destruct ((0 <=? Z.quot (y * pitch surface) 4 + x)
              && (Z.quot (y * pitch surface) 4 + x <? Z.of_nat (length (pixels surface))))
      eqn:Hbuf; [|rewrite andb_false_iff in Hbuf; lia].
    eexists. split; [reflexivity|]. split.
    + repeat split; cbn [w h pitch pixels]. rewrite length_insert. reflexivity.
    + intros x' y' Hin'.
      rewrite getPixel_inWindow by exact Hin'.
      rewrite getPixel_inWindow by exact Hin'. cbn [pixels pitch].
      case_bool_decide as Hsame.
      * destruct Hsame as [-> ->]. apply list_lookup_insert_eq. lia.
      * apply list_lookup_insert_ne. intros Heq. apply Hsame.
        pose proof (offset_in_buffer surface x' y' Hwf Hin') as Hoff'.
        apply Z2Nat.inj in Heq; [|lia|lia].
        destruct (offset_injective surface x y x' y' Hwf Htest Hin' Heq). auto.
  - eexists. split; [reflexivity|]. split; [apply sameShape_refl|].
    intros x' y' Hin'. case_bool_decide as Hsame; [|reflexivity].
    destruct Hsame as [-> ->]. apply inWindow_test in Hin'. congruence.
Qed.

(** X1.  On a surface whose rows do not overlap and whose buffer holds all
    its rows, [setPixel] never writes outside the buffer, whatever the
    coordinates.  It keeps the shape of the surface; afterwards the pixel
    [(x, y)] reads [color] and every other pixel of the window reads what it
    read before; for coordinates outside the window nothing is written. *)
Theorem setPixel_getPixel (surface : SDL_Surface) (x y color : Z) :
  wellFormed surface ->
  exists surface',
    setPixel surface x y color = Some surface' /\
    sameShape surface surface' /\
    (forall x' y',
        inWindow surface x' y' ->
        getPixel surface' x' y'
        = if bool_decide (x' = x /\ y' = y) then Some color
          else getPixel surface x' y') /\
    (~ inWindow surface x y -> surface' = surface).
Proof.
  intros Hwf.
  destruct (setPixel_writes surface x y color Hwf) as (surface' & Hset & Hshape & Hget).
  exists surface'. split; [exact Hset|]. split; [exact Hshape|]. split; [exact Hget|].
  intros Hout. unfold setPixel in Hset.
  destruct ((0 <=? x) && (x <? w surface) && (0 <=? y) && (y <? h surface)) eqn:Htest.
  - apply inWindow_test in Htest. contradiction.
  - congruence.
Qed.

Lemma setPixel_getPixel_witness :
  let surface := mkSurface 4 3 16 (replicate 12 0) in
  wellFormed surface /\
  exists surface',
    setPixel surface 1 2 7 = Some surface' /\
    sameShape surface surface' /\
    (forall x' y',
        inWindow surface x' y' ->
        getPixel surface' x' y'
        = if bool_decide (x' = 1 /\ y' = 2) then Some 7
          else getPixel surface x' y') /\
    (~ inWindow surface 1 2 -> surface' = surface).
Proof.
  assert (Hwf : wellFormed (mkSurface 4 3 16 (replicate 12 0)))
    by (unfold wellFormed; repeat split; vm_compute; discriminate).
  split; [exact Hwf|].
  exact (setPixel_getPixel (mkSurface 4 3 16 (replicate 12 0)) 1 2 7 Hwf).
Defined.

Section Painting.

Context {D : Type} `{Arith D} `{ToInt D}.

Lemma range_bounds (lo hi k : Z) : k ∈ range lo hi -> lo <= k <= hi.
Proof.
  unfold range. rewrite list_elem_of_fmap. intros (i & -> & Hi).
  apply list_elem_of_In, in_seq in Hi. lia.
Qed.

Lemma grid_bounds (lo hi : Z) (p : Z * Z) :
  p ∈ grid (range lo hi) (range lo hi) -> lo <= p.1 <= hi /\ lo <= p.2 <= hi.
Proof.
  unfold grid. rewrite list_elem_of_In, in_flat_map. intros (b & Hb & Hp).
  apply in_map_iff in Hp. destruct Hp as (a & <- & Ha). cbn [fst snd].
  split; apply range_bounds, list_elem_of_In; assumption.
Qed.

(** Up to radius [32767] the [int] arithmetic of line 55 is exact. *)
Lemma inDisc_exact (a b radius : Z) :
  0 <= radius <= 32767 ->
  - radius <= a <= radius -> - radius <= b <= radius ->
  inDisc a b radius = Some (a * a + b * b <=? radius * radius).
Proof.
  intros Hr Ha Hb.
  assert (Hrr : 0 <= radius * radius <= 32767 * 32767) by nia.
  assert (Haa : 0 <= a * a <= radius * radius) by nia.
  assert (Hbb : 0 <= b * b <= radius * radius) by nia.
  assert (Hint : forall z, 0 <= z <= 2 * (32767 * 32767) -> in_int_range z = Some z).
  { intros z Hz. unfold in_int_range.
    destruct ((- 2 ^ 31 <=? z) && (z <? 2 ^ 31)) eqn:Htest; [reflexivity|].
    rewrite andb_false_iff in Htest. lia. }
  unfold inDisc. rewrite !Hint by lia. reflexivity.
Qed.

Lemma foldl_grid {A} (f : A -> Z -> Z -> A) (a : A) (xs ys : list Z) :
  foldl (fun rows y => foldl (fun row x => f row x y) rows xs) a ys
  = foldl (fun acc p => f acc p.1 p.2) a (grid xs ys).
Proof.
  unfold grid. revert a. induction ys as [|y ys IH]; intros a; [reflexivity|].
  cbn [foldl flat_map]. rewrite foldl_app, IH. f_equal.
  clear. revert a. induction xs as [|x xs IHx]; intros a; [reflexivity|].
  cbn [foldl map]. apply IHx.
Qed.

Lemma existsb_grid (f : Z -> Z -> bool) (xs ys : list Z) :
  existsb (fun y => existsb (fun x => f x y) xs) ys
  = existsb (fun p => f p.1 p.2) (grid xs ys).
Proof.
  unfold grid. induction ys as [|y ys IH]; [reflexivity|].
  cbn [existsb flat_map]. rewrite existsb_app, IH. f_equal.
  clear. induction xs as [|x xs IHx]; [reflexivity|].
  cbn [existsb map]. rewrite IHx. reflexivity.
Qed.

Lemma covers_grid (center : Vector2 D) (radius px py : Z) :
  covers center radius px py
  = existsb (landsOn (x center) (y center) radius px py)
            (grid (range (- radius) radius) (range (- radius) radius)).
Proof.
  destruct center as [cx cy]. unfold covers. cbn [x y].
  rewrite (existsb_grid (fun dx dy =>
    (dx * dx + dy * dy <=? radius * radius)
    && bool_decide (to_int (cx + of_int dx)%dbl = Some px)
    && bool_decide (to_int (cy + of_int dy)%dbl = Some py))).
  reflexivity.
Qed.

Lemma drawFilledCircle_grid (surface : SDL_Surface) (center : Vector2 D) (radius color : Z) :
  drawFilledCircle surface center radius color
  = foldl (fun acc p => drawPoint (x center) (y center) radius color acc p.1 p.2)
          (Some surface)
          (grid (range (- radius) radius) (range (- radius) radius)).
Proof.
  destruct center as [cx cy]. unfold drawFilledCircle. cbn [x y].
  apply (foldl_grid (fun acc dx dy => drawPoint cx cy radius color acc dx dy)).
Qed.

Lemma paint_points (cx cy : D) (radius color : Z) (pts : list (Z * Z))
    (surface : SDL_Surface) :
  wellFormed surface ->
  Forall (fun p => inDisc p.1 p.2 radius
                   = Some (p.1 * p.1 + p.2 * p.2 <=? radius * radius)) pts ->
  forallb (convertsAt cx cy radius) pts = true ->
  exists surface',
    foldl (fun acc p => drawPoint cx cy radius color acc p.1 p.2) (Some surface) pts
    = Some surface' /\
    sameShape surface surface' /\
    forall px py,
      inWindow surface px py ->
      getPixel surface' px py
      = if existsb (landsOn cx cy radius px py) pts then Some color
        else getPixel surface px py.
Proof.
  revert surface. induction pts as [|p pts IH]; intros surface Hwf Hint Hconv.
  - exists surface. split; [reflexivity|]. split; [apply sameShape_refl|]. reflexivity.
  - cbn [forallb] in Hconv. apply andb_true_iff in Hconv. destruct Hconv as [Hp Hpts].
    apply Forall_cons in Hint. destruct Hint as [Hint Hints].
    cbn [foldl]. unfold drawPoint at 2. rewrite Hint. unfold convertsAt in Hp.
    destruct (p.1 * p.1 + p.2 * p.2 <=? radius * radius) eqn:Hdisc.
    + cbn [negb orb] in Hp. apply andb_true_iff in Hp. destruct Hp as [Hcx Hcy].
      destruct (to_int (cx + of_int p.1)%dbl) as [qx|] eqn:Hqx; [|discriminate Hcx].
      destruct (to_int (cy + of_int p.2)%dbl) as [qy|] eqn:Hqy; [|discriminate Hcy].
      destruct (setPixel_writes surface qx qy color Hwf)
        as (s1 & Hset & Hshape1 & Hget1).
      rewrite Hset.
      destruct (IH s1 (wellFormed_sameShape _ _ Hshape1 Hwf) Hints Hpts)
        as (s2 & Hfold & Hshape2 & Hget2).
      exists s2. split; [exact Hfold|]. split; [eapply sameShape_trans; eassumption|].
      intros px py Hin.
      rewrite (Hget2 px py (inWindow_sameShape _ _ _ _ Hshape1 Hin)), (Hget1 px py Hin).
      cbn [existsb]. unfold landsOn at 2. rewrite Hdisc, Hqx, Hqy. cbn [andb].
      destruct (existsb (landsOn cx cy radius px py) pts); [rewrite orb_true_r; reflexivity|].
      rewrite orb_false_r.
      rewrite bool_decide_and.
      rewrite (bool_decide_ext (Some qx = Some px) (px = qx)) by (split; congruence).
      rewrite (bool_decide_ext (Some qy = Some py) (py = qy)) by (split; congruence).
      reflexivity.
    + destruct (IH surface Hwf Hints Hpts) as (s2 & Hfold & Hshape2 & Hget2).
      exists s2. split; [exact Hfold|]. split; [exact Hshape2|].
      intros px py Hin. rewrite (Hget2 px py Hin).
      cbn [existsb]. unfold landsOn at 2. rewrite Hdisc. reflexivity.
Qed.

(** The offsets of a disc of radius up to [32767] are all within the range
    where the test of line 55 does not overflow. *)
Lemma grid_inDisc (radius : Z) :
  0 <= radius <= 32767 ->
  Forall (fun p => inDisc p.1 p.2 radius
                   = Some (p.1 * p.1 + p.2 * p.2 <=? radius * radius))
         (grid (range (- radius) radius) (range (- radius) radius)).
Proof.
  intros Hr. apply Forall_forall. intros p Hp. apply grid_bounds in Hp.
  apply inDisc_exact; [exact Hr | apply Hp | apply Hp].
Qed.

(** X2.  For a radius up to [32767], and when every coordinate of the disc
    converts to an [int], [drawFilledCircle] on a well-formed surface has no
    undefined behaviour, wherever the centre lies: no [int] overflows,
    nothing is written outside the buffer, and the part of the disc outside
    the window is clipped.  Afterwards a pixel of the window reads [color]
    if some offset of the disc lands on it, and what it read before if none
    does. *)
Theorem drawFilledCircle_pixels (surface : SDL_Surface) (center : Vector2 D)
    (radius color : Z) :
  wellFormed surface ->
  0 <= radius <= 32767 ->
  drawable center radius = true ->
  exists surface',
    drawFilledCircle surface center radius color = Some surface' /\
    sameShape surface surface' /\
    forall px py,
      inWindow surface px py ->
      getPixel surface' px py
      = if covers center radius px py then Some color else getPixel surface px py.
Proof.
  intros Hwf Hr Hdraw. rewrite drawFilledCircle_grid.
  destruct center as [cx cy]. cbn [x y]. cbn [drawable] in Hdraw.
  destruct (paint_points cx cy radius color _ surface Hwf (grid_inDisc radius Hr) Hdraw)
    as (s' & Hfold & Hshape & Hget).
  exists s'. split; [exact Hfold|]. split; [exact Hshape|].
  intros px py Hin. rewrite (Hget px py Hin), covers_grid. reflexivity.
Qed.

Lemma drawSpheres_snoc (surface : SDL_Surface) (spheres : list (Sphere D)) (s : Sphere D) :
  drawSpheres surface (spheres ++ [s])
  = match drawSpheres surface spheres with
    | None => None
    | Some drawn => drawFilledCircle drawn (position s) SPHERE_RADIUS (color s)
    end.
Proof. unfold drawSpheres. rewrite foldl_app. reflexivity. Qed.

(** X3.  "Draw all spheres" on a well-formed surface, when every sphere is
    drawable: there is no undefined behaviour, and a pixel of the
    window ends with the colour of the last sphere of the vector that lands
    on it (later spheres are painted over earlier ones), or with what it
    held before if no sphere lands on it. *)
Theorem drawSpheres_pixels (surface : SDL_Surface) (spheres : list (Sphere D)) :
  wellFormed surface ->
  forallb (fun s => drawable (position s) SPHERE_RADIUS) spheres = true ->
  exists surface',
    drawSpheres surface spheres = Some surface' /\
    sameShape surface surface' /\
    forall px py,
      inWindow surface px py ->
      getPixel surface' px py
      = match topColor spheres px py with
        | Some c => Some c
        | None => getPixel surface px py
        end.
Proof.
  intros Hwf. induction spheres as [|s spheres IH] using rev_ind; intros Hall.
  - exists surface. split; [reflexivity|]. split; [apply sameShape_refl|]. reflexivity.
  - rewrite forallb_app in Hall. apply andb_true_iff in Hall. destruct Hall as [Hall Hs].
    cbn [forallb] in Hs. rewrite andb_true_r in Hs.
    destruct (IH Hall) as (s1 & Hdraw1 & Hshape1 & Hget1).
    rewrite drawSpheres_snoc, Hdraw1, drawFilledCircle_grid.
    unfold topColor. setoid_rewrite foldl_app. cbn [foldl].
    setoid_rewrite covers_grid.
    destruct (position s) as [cx cy]. cbn [x y]. cbn [drawable] in Hs.
    destruct (paint_points cx cy SPHERE_RADIUS (color s) _ s1
                (wellFormed_sameShape _ _ Hshape1 Hwf)
                (grid_inDisc SPHERE_RADIUS ltac:(unfold SPHERE_RADIUS; lia)) Hs)
      as (s2 & Hdraw2 & Hshape2 & Hget2).
    exists s2. split; [exact Hdraw2|].
    split; [eapply sameShape_trans; eassumption|].
    intros px py Hin.
    rewrite (Hget2 px py (inWindow_sameShape _ _ _ _ Hshape1 Hin)), (Hget1 px py Hin).
    destruct (existsb _ _); reflexivity.
Qed.

End Painting.
End DrawingProperties.

Section FrameProperties.

Context {D : Type} `{Arith D}.

Section KeptField.

Context {A : Type} (f : Sphere D -> A).
Hypothesis f_moveSphere : forall s, f (moveSphere s) = f s.
Hypothesis f_collision : forall s o,
  f (fst (handleSphereCollision s o)) = f s /\
  f (snd (handleSphereCollision s o)) = f o.

Lemma collidePair_keeps (i j : nat) (l : list (Sphere D)) :
  f <$> collidePair i j l = f <$> l.
Proof using f_collision.
  unfold collidePair. case_decide; [reflexivity|].
  destruct (l !! i) as [s|] eqn:Hi; [|reflexivity].
  destruct (l !! j) as [o|] eqn:Hj; [|reflexivity].
  pose proof (f_collision s o) as [Hs Ho].
  destruct (handleSphereCollision s o) as [s' o']. cbn [fst snd] in Hs, Ho.
  rewrite !list_fmap_insert, Hs, Ho.
  rewrite (list_insert_id (f <$> l) i) by (rewrite list_lookup_fmap, Hi; reflexivity).
  apply list_insert_id. rewrite list_lookup_fmap, Hj. reflexivity.
Qed.

Lemma updateSphere_keeps (i : nat) (l : list (Sphere D)) :
  f <$> updateSphere i l = f <$> l.
Proof using f_moveSphere f_collision.
  unfold updateSphere. destruct (l !! i) as [s|] eqn:Hi; [|reflexivity].
  transitivity (f <$> <[i := moveSphere s]> l).
  - unfold collideOthers. generalize (seq 0 (length (<[i := moveSphere s]> l))).
    generalize (<[i := moveSphere s]> l). intros l' js. revert l'.
    induction js as [|j js IH]; intros l'; [reflexivity|].
    cbn [foldl]. rewrite IH. apply collidePair_keeps.
  - rewrite list_fmap_insert, f_moveSphere.
    apply list_insert_id. rewrite list_lookup_fmap, Hi. reflexivity.
Qed.

Lemma updateAll_keeps (l : list (Sphere D)) : f <$> updateAll l = f <$> l.
Proof using f_moveSphere f_collision.
  unfold updateAll. generalize (seq 0 (length l)). intros indices. revert l.
  induction indices as [|i indices IH]; intros l; [reflexivity|].
  cbn [foldl]. rewrite IH. apply updateSphere_keeps.
Qed.

End KeptField.

Lemma moveSphere_color (s : Sphere D) : color (moveSphere s) = color s.
Proof.
  unfold moveSphere, resolveBoundaries, bounceSides, bounceBottom, integrate.
  repeat match goal with |- context [if ?c then _ else _] => destruct c end;
    reflexivity.
Qed.

Lemma collision_color (s o : Sphere D) :
  color (fst (handleSphereCollision s o)) = color s /\
  color (snd (handleSphereCollision s o)) = color o.
Proof.
  pose proof (handleSphereCollision_keeps s o) as Hkeep.
  destruct (handleSphereCollision s o). cbn [fst snd]. tauto.
Qed.

Lemma collision_bounceFactor (s o : Sphere D) :
  bounceFactor (fst (handleSphereCollision s o)) = bounceFactor s /\
  bounceFactor (snd (handleSphereCollision s o)) = bounceFactor o.
Proof.
  pose proof (handleSphereCollision_keeps s o) as Hkeep.
  destruct (handleSphereCollision s o). cbn [fst snd]. tauto.
Qed.

Lemma updateAll_length (l : list (Sphere D)) : length (updateAll l) = length l.
Proof.
  rewrite <- (length_fmap color (updateAll l)).
  rewrite (updateAll_keeps color moveSphere_color collision_color). apply length_fmap.
Qed.

(** X4.  A tick never adds, removes or reorders spheres, and never
    repaints one or changes its bounce factor: the update loop writes
    positions and velocities only. *)
Theorem updateAll_keeps_vector (l : list (Sphere D)) :
  length (updateAll l) = length l /\
  map color (updateAll l) = map color l /\
  map bounceFactor (updateAll l) = map bounceFactor l.
Proof.
  assert (Hc : color <$> updateAll l = color <$> l)
    by (apply updateAll_keeps; [apply moveSphere_color | apply collision_color]).
  assert (Hb : bounceFactor <$> updateAll l = bounceFactor <$> l)
    by (apply updateAll_keeps; [apply moveSphere_bounceFactor | apply collision_bounceFactor]).
  split; [|split; assumption].
  rewrite <- (length_fmap color (updateAll l)), Hc. apply length_fmap.
Qed.

Lemma handleEvent_spheres (palette : nat -> Z) (e : Event) (w1 w2 : World D) :
  spheres w1 = spheres w2 ->
  spheres (handleEvent palette w1 e) = spheres (handleEvent palette w2 e).
Proof.
  intros Heq. destruct e as [|button ex ey|]; cbn [handleEvent spheres]; try exact Heq.
  destruct (Z.eqb button SDL_BUTTON_LEFT); cbn [spheres]; [|exact Heq].
  rewrite Heq. reflexivity.
Qed.

Lemma handleEvents_spheres (palette : nat -> Z) (events : list Event) (w1 w2 : World D) :
  spheres w1 = spheres w2 ->
  spheres (foldl (handleEvent palette) w1 events)
  = spheres (foldl (handleEvent palette) w2 events).
Proof.
  revert w1 w2. induction events as [|e events IH]; intros w1 w2 Heq; [exact Heq|].
  cbn [foldl]. apply IH, handleEvent_spheres, Heq.
Qed.

Lemma handleEvents_count (palette : nat -> Z) (events : list Event) (w : World D) :
  length (spheres (foldl (handleEvent palette) w events))
  = (length (spheres w) + length (List.filter isLeftClick events))%nat.
Proof.
  revert w. induction events as [|e events IH]; intros w; [cbn; lia|].
  cbn [foldl]. rewrite IH.
  destruct e as [|button ex ey|]; cbn [handleEvent isLeftClick spheres List.filter];
    try reflexivity.
  destruct (Z.eqb button SDL_BUTTON_LEFT); cbn [spheres length]; [|reflexivity].
  unfold spawn. rewrite length_app. cbn [length]. lia.
Qed.

Lemma handleEvents_quit (palette : nat -> Z) (events : list Event) (w : World D) :
  quit (foldl (handleEvent palette) w events) = quit w || existsb isQuit events.
Proof.
  revert w. induction events as [|e events IH]; intros w; [cbn; rewrite orb_false_r; reflexivity|].
  cbn [foldl existsb]. rewrite IH.
  destruct e as [|button ex ey|]; cbn [handleEvent isQuit quit].
  - rewrite orb_true_r. reflexivity.
  - destruct (Z.eqb button SDL_BUTTON_LEFT); reflexivity.
  - reflexivity.
Qed.

(** X5.  After a frame the vector holds one more sphere per left click of
    the event queue, and nothing else changes its length: no other event
    adds a sphere, and spheres are never removed. *)
Theorem frame_sphere_count (palette : nat -> Z) (events : list Event) (w : World D) :
  length (spheres (frame palette events w))
  = (length (spheres w) + length (List.filter isLeftClick events))%nat.
Proof.
  unfold frame. cbn [spheres]. rewrite updateAll_length. apply handleEvents_count.
Qed.

(** X6.  [SDL_QUIT] raises the flag and nothing more: the events queued
    behind it are still handled, and the frame still runs its update, as if
    the event had not been in the queue. *)
Theorem quit_does_not_stop_the_frame (palette : nat -> Z)
    (before after : list Event) (w : World D) :
  quit (frame palette (before ++ SDL_QUIT :: after) w) = true /\
  spheres (frame palette (before ++ SDL_QUIT :: after) w)
  = spheres (frame palette (before ++ after) w).
Proof.
  unfold frame. cbn [spheres quit]. split.
  - rewrite handleEvents_quit, existsb_app. cbn [existsb isQuit].
    rewrite orb_true_r. apply orb_true_r.
  - f_equal. rewrite !foldl_app. cbn [foldl handleEvent].
    apply handleEvents_spheres. reflexivity.
Qed.

Lemma handleEvents_colors (palette : nat -> Z) (events : list Event) (w : World D) :
  map color (spheres w) = map palette (seq 0 (length (spheres w))) ->
  map color (spheres (foldl (handleEvent palette) w events))
  = map palette (seq 0 (length (spheres (foldl (handleEvent palette) w events)))).
Proof.
  revert w. induction events as [|e events IH]; intros w Hw; [exact Hw|].
  cbn [foldl]. apply IH.
  destruct e as [|button ex ey|]; cbn [handleEvent spheres]; try exact Hw.
  destruct (Z.eqb button SDL_BUTTON_LEFT); cbn [spheres]; [|exact Hw].
  unfold spawn. rewrite length_app, map_app, Hw. cbn [length map].
  rewrite Nat.add_1_r, seq_S, map_app. reflexivity.
Qed.

(** X7.  The colours in the vector are, in order, the colours drawn for the
    spheres as they were spawned: the [k]-th sphere keeps the [k]-th colour
    for as long as the program runs. *)
Theorem reachable_colors (palette : nat -> Z) (w : World D) :
  reachable palette w ->
  map color (spheres w) = map palette (seq 0 (length (spheres w))).
Proof.
  induction 1 as [|events w _ IH _]; [reflexivity|].
  unfold frame. cbn [spheres].
  rewrite updateAll_length.
  change (map color (updateAll ?l)) with (color <$> updateAll l).
  rewrite (updateAll_keeps color moveSphere_color collision_color).
  apply handleEvents_colors, IH.
Qed.

End FrameProperties.

(** * The drawing and frame properties on concrete inputs *)

Lemma drawFilledCircle_pixels_witness :
  let surface := mkSurface 4 3 16 (replicate 12 0%Z) in
  let center : Vector2 float := mkVector2 3.5%float 1.5%float in
  wellFormed surface /\
  (0 <= 1 <= 32767)%Z /\
  drawable center 1 = true /\
  exists surface',
    drawFilledCircle surface center 1 7 = Some surface' /\
    sameShape surface surface' /\
    forall px py,
      inWindow surface px py ->
      getPixel surface' px py
      = if covers center 1 px py then Some 7%Z else getPixel surface px py.
Proof.
  assert (Hwf : wellFormed (mkSurface 4 3 16 (replicate 12 0%Z)))
    by (unfold wellFormed; repeat split; vm_compute; discriminate).
  assert (Hdraw : drawable (mkVector2 3.5%float 1.5%float) 1 = true)
    by (vm_compute; reflexivity).
  split; [exact Hwf|]. split; [lia|]. split; [exact Hdraw|].
  exact (drawFilledCircle_pixels (mkSurface 4 3 16 (replicate 12 0%Z))
           (mkVector2 3.5%float 1.5%float) 1 7 Hwf ltac:(lia) Hdraw).
Defined.

Lemma drawSpheres_pixels_witness :
  let surface := mkSurface 4 3 16 (replicate 12 0%Z) in
  let spheres : list (Sphere float) :=
    [ball 2.5 1.5 0 0 7; ball (-18.5) 1 0 0 9]%float in
  wellFormed surface /\
  forallb (fun s => drawable (position s) SPHERE_RADIUS) spheres = true /\
  exists surface',
    drawSpheres surface spheres = Some surface' /\
    sameShape surface surface' /\
    forall px py,
      inWindow surface px py ->
      getPixel surface' px py
      = match topColor spheres px py with
        | Some c => Some c
        | None => getPixel surface px py
        end.
Proof.
  assert (Hwf : wellFormed (mkSurface 4 3 16 (replicate 12 0%Z)))
    by (unfold wellFormed; repeat split; vm_compute; discriminate).
  assert (Hdraw : forallb (fun s : Sphere float => drawable (position s) SPHERE_RADIUS)
                          [ball 2.5 1.5 0 0 7; ball (-18.5) 1 0 0 9]%float = true)
    by (vm_compute; reflexivity).
  split; [exact Hwf|]. split; [exact Hdraw|].
  exact (drawSpheres_pixels (mkSurface 4 3 16 (replicate 12 0%Z))
           [ball 2.5 1.5 0 0 7; ball (-18.5) 1 0 0 9]%float Hwf Hdraw).
Defined.

Lemma reachable_colors_witness :
  let palette := fun k : nat => Z.of_nat (k + 5) in
  let world : World float :=
    frame palette [SDL_MOUSEBUTTONDOWN 1 100 100; SDL_MOUSEBUTTONDOWN 1 300 50]
          (mkWorld [] false) in
  map color (spheres world) = map palette (seq 0 (length (spheres world))).
Proof.
  cbv zeta.
  apply (reachable_colors (D := float) (fun k : nat => Z.of_nat (k + 5))).
  apply reachable_frame; [apply reachable_start | reflexivity].
Defined.

Lemma reachable_bounceFactor_witness :
  let palette := fun k : nat => Z.of_nat (k + 5) in
  let world : World float :=
    frame palette [SDL_MOUSEBUTTONDOWN 1 100 100; SDL_MOUSEBUTTONDOWN 1 300 50]
          (mkWorld [] false) in
  Forall (fun s => bounceFactor s = BOUNCE_FACTOR) (spheres world).
Proof.
  cbv zeta.
  apply (reachable_bounceFactor (D := float) (fun k : nat => Z.of_nat (k + 5))).
  apply reachable_frame; [apply reachable_start | reflexivity].
Defined.
